(** * integral_convolve: the lattice operator and the forcing vectors

    A shallow embedding of [integral_convolve.py].  Python integers are
    modelled by [Z] (with [//] and [%] as floor division and modulo, which
    is what [Z.div] and [Z.modulo] are), one- and two-dimensional NumPy
    arrays by lists and lists of rows, and raised exceptions by an error
    monad.  Floats are modelled twice: by the real numbers [R], for the
    properties that do not depend on rounding, and by IEEE 754 binary64
    numbers (module [Binary64]), for those that do. *)

From Stdlib Require Import String Ascii.
From Stdlib Require Import Reals ZArith List Bool Lia Lra.
From Stdlib Require Import Uint63 PrimFloat.
Import ListNotations.

Local Open Scope Z_scope.

(* ===================================================================== *)
(** * Definitions *)
(* ===================================================================== *)

(** ** The Python run time: exceptions and [for] loops *)

Module Py.

Inductive exn : Type :=
| ZeroDivisionError
| IndexError
| SyntaxError (lineno : nat)
| Exception (msg : string).

Inductive result (A : Type) : Type :=
| Ok (a : A)
| Raise (e : exn).
Arguments Ok {A} a.
Arguments Raise {A} e.

Definition bind {A B : Type} (c : result A) (k : A -> result B) : result B :=
  match c with
  | Ok a => k a
  | Raise e => Raise e
  end.

(** [range(n)]: the integers [0, 1, ..., n-1]; empty when [n <= 0]. *)
Definition range (n : Z) : list Z := map Z.of_nat (seq 0 (Z.to_nat n)).

(** [for x in xs: s = body(s, x)], the loop state threaded through; the
    first exception ends the loop. *)
Fixpoint for_each {S A : Type} (xs : list A) (body : S -> A -> result S)
         (s : S) : result S :=
  match xs with
  | [] => Ok s
  | x :: xs' => bind (body s x) (for_each xs' body)
  end.

(** A loop whose body cannot raise. *)
Definition for_each_pure {S A : Type} (xs : list A) (body : S -> A -> S)
           (s : S) : S :=
  fold_left body xs s.

End Py.

Import Py.

Notation "x <- c ;; k" := (Py.bind c (fun x => k))
  (at level 61, c at next level, right associativity).

(** ** NumPy arrays *)

Module Np.

Definition vector := list R.
Definition matrix := list (list R).

(** [np.zeros([r, c])] *)
Definition zeros (r c : Z) : matrix :=
  repeat (repeat 0%R (Z.to_nat c)) (Z.to_nat r).

(** An index [k] into an axis of length [len]: [0 <= k < len] is itself,
    [-len <= k < 0] counts from the end, anything else is an
    [IndexError]. *)
Definition norm_index (len : nat) (k : Z) : result nat :=
  if (0 <=? k) && (k <? Z.of_nat len) then Ok (Z.to_nat k)
  else if (- Z.of_nat len <=? k) && (k <? 0) then Ok (Z.to_nat (k + Z.of_nat len))
  else Raise IndexError.

Fixpoint update {A : Type} (l : list A) (k : nat) (v : A) : list A :=
  match l, k with
  | [], _ => []
  | _ :: l', O => v :: l'
  | x :: l', S k' => x :: update l' k' v
  end.

(** [a[i, j]] *)
Definition getitem (a : matrix) (i j : Z) : result R :=
  r <- norm_index (length a) i ;;
  let row := nth r a [] in
  c <- norm_index (length row) j ;;
  Ok (nth c row 0%R).

(** [v[k]] on a one-dimensional array *)
Definition item (v : vector) (k : Z) : result R :=
  c <- norm_index (length v) k ;;
  Ok (nth c v 0%R).

(** [a[i, j] = v] *)
Definition setitem (a : matrix) (i j : Z) (v : R) : result matrix :=
  r <- norm_index (length a) i ;;
  let row := nth r a [] in
  c <- norm_index (length row) j ;;
  Ok (update a r (update row c v)).

(** Element-wise [p - q] and [np.abs]. *)
Fixpoint sub (p q : vector) : vector :=
  match p, q with
  | x :: p', y :: q' => (x - y)%R :: sub p' q'
  | _, _ => []
  end.

Definition abs (p : vector) : vector := map Rabs p.

(** [np.where(d < 1/2, d, 1 - d)], element by element. *)
Definition where_lt_half (d : vector) : vector :=
  map (fun x => if Rlt_dec x (1 / 2) then x else (1 - x)%R) d.

(** [np.sum] *)
Definition sum (p : vector) : R := fold_right Rplus 0%R p.

(** The shape of a matrix: [rows] rows, each of [cols] entries. *)
Definition has_shape (a : matrix) (rows cols : nat) : Prop :=
  length a = rows /\ forall row, In row a -> length row = cols.

End Np.

(** ** The source functions *)

(** [exp_kernel(distance)] *)
Definition exp_kernel (distance : R) : R := exp (- distance).

(** The two lattice points of [matrix_entry]: [x = (i//n)/n; y = (i%n)/n]. *)
Definition lattice_point (i n : Z) : Np.vector :=
  [ (IZR (i / n) / IZR n)%R ; (IZR (i mod n) / IZR n)%R ].

(** The [distance] of [matrix_entry]: the Manhattan distance on the
    wrap-around lattice of size 1x1. *)
Definition lattice_distance (point1 point2 : Np.vector) : R :=
  let diff := Np.abs (Np.sub point1 point2) in
  Np.sum (Np.where_lt_half diff).

(** [matrix_entry(i, j, n, kernel_func)]; the floor division by [n = 0]
    raises. *)
Definition matrix_entry (i j n : Z) (kernel_func : R -> R) : result R :=
  if n =? 0 then Raise ZeroDivisionError
  else
    let point1 := lattice_point i n in
    let point2 := lattice_point j n in
    let distance := lattice_distance point1 point2 in
    let entry := (1 / IZR (n ^ 2) * kernel_func distance)%R in
    Ok entry.

(** [cross_correlation(n, kernel_func, lamb)] *)
Definition cross_correlation (n : Z) (kernel_func : R -> R) (lamb : R)
  : result Np.matrix :=
  let result0 := Np.zeros (n ^ 2) (n ^ 2) in
  for_each (range (n ^ 2)) (fun result i =>
    for_each (range (n ^ 2)) (fun result j =>
      e <- matrix_entry i j n kernel_func ;;
      result <- Np.setitem result i j (lamb * e)%R ;;
      if i =? j then
        old <- Np.getitem result i j ;;
        Np.setitem result i j (old + 1)%R
      else Ok result) result) result0.

(** [f(x, y)] *)
Definition f (x y : R) : R := ((x - x ^ 3) * (y - y ^ 3))%R.

Definition Rgeb (x y : R) : bool := if Rge_dec x y then true else false.
Definition Rltb (x y : R) : bool := if Rlt_dec x y then true else false.
Definition Rleb (x y : R) : bool := if Rle_dec x y then true else false.

(** The inner [func] of [g]. *)
Definition func (x : R) : result R :=
  if Rgeb x 0 && Rltb x 0.5 then
    Ok (-3 * exp (- x) - 2 * x * (5 + x ^ 2)
        + (1 + 2 * x) * (21 + 4 * x * (1 + x)) / (4 * exp (1 / 2)))%R
  else if Rgeb x 0.5 && Rleb x 1 then
    Ok (9 * exp (-1 + x) - 2 * x * (5 + x ^ 2)
        + (-1 + 2 * x) * (21 + 4 * x * (-1 + x)) / (4 * exp (1 / 2)))%R
  else Raise (Exception "should not get here").

(** [g(x, y, lamb)] on scalars: [np.vectorize(func)] applied to a scalar
    calls [func] on it. *)
Definition g (x y lamb : R) : result R :=
  let vfunc := func in
  hx <- vfunc x ;;
  hy <- vfunc y ;;
  Ok (f x y + lamb * hx * hy)%R.

(** [discretized_f(N)]; the loop body runs only for [N >= 1], so the
    division by [N] cannot fail. *)
Definition discretized_f (N : Z) : Np.vector :=
  for_each_pure (range N) (fun vec i =>
    for_each_pure (range N) (fun vec j =>
      vec ++ [ f (IZR i / IZR N) (IZR j / IZR N) ]) vec) [].

(** [discretized_g(lamb, N)] *)
Definition discretized_g (lamb : R) (N : Z) : result Np.vector :=
  for_each (range N) (fun vec i =>
    for_each (range N) (fun vec j =>
      v <- g (IZR i / IZR N) (IZR j / IZR N) lamb ;;
      Ok (vec ++ [ v ])) vec) [].

(** ** The specification's vocabulary

    The names the specification uses for what [matrix_entry] computes
    inline; they are related to the source definitions by
    [lattice_point_point] and [lattice_distance_toroidal] below. *)

(** [point(k, n) = ((k div n)/n, (k mod n)/n)] *)
Definition point (k n : Z) : R * R :=
  ((IZR (k / n) / IZR n)%R, (IZR (k mod n) / IZR n)%R).

(** The wrapped coordinate difference: [d if d < 0.5 else 1 - d]. *)
Definition wrap (d : R) : R := if Rlt_dec d (1 / 2) then d else (1 - d)%R.

(** [toroidal_distance(p, q)]: the wrapped absolute coordinate
    differences, summed over the two axes. *)
Definition toroidal_distance (p q : R * R) : R :=
  (wrap (Rabs (fst p - fst q)) + wrap (Rabs (snd p - snd q)))%R.

(** The two analytic branches of the factor [h] of [g], and [h] itself on
    [[0, 1]]. *)
Definition h_low (x : R) : R :=
  (-3 * exp (- x) - 2 * x * (5 + x ^ 2)
   + (1 + 2 * x) * (21 + 4 * x * (1 + x)) / (4 * exp (1 / 2)))%R.

Definition h_high (x : R) : R :=
  (9 * exp (-1 + x) - 2 * x * (5 + x ^ 2)
   + (-1 + 2 * x) * (21 + 4 * x * (-1 + x)) / (4 * exp (1 / 2)))%R.

Definition h (x : R) : R := if Rlt_dec x (1 / 2) then h_low x else h_high x.

(** The cyclic shift of a flattened lattice index by [(a, b)]. *)
Definition shift (n a b k : Z) : Z :=
  ((k / n + a) mod n) * n + ((k mod n + b) mod n).

(** The row-major table of [F] over the [n x n] grid. *)
Definition grid (F : Z -> Z -> R) (n : Z) : Np.vector :=
  flat_map (fun i => map (F i) (range n)) (range n).

(** The Kronecker delta on indices. *)
Definition delta (i j : Z) : R := if i =? j then 1%R else 0%R.

(** ** Python lists and the remaining source functions *)

(** [range(start, stop)] *)
Definition range2 (start stop : Z) : list Z :=
  map (fun k => start + Z.of_nat k) (seq 0 (Z.to_nat (stop - start))).

(** [range(start, stop, -1)] *)
Definition range_down (start stop : Z) : list Z :=
  map (fun k => start - Z.of_nat k) (seq 0 (Z.to_nat (start - stop))).

(** [l[k]] on a Python list: negative [k] counts from the end. *)
Definition list_getitem {A : Type} (l : list A) (k : Z) : result A :=
  c <- Np.norm_index (length l) k ;;
  match nth_error l c with
  | Some x => Ok x
  | None => Raise IndexError
  end.

(** [l.pop(k)]: the element removed and the list that is left. *)
Definition list_pop {A : Type} (l : list A) (k : Z) : result (A * list A) :=
  c <- Np.norm_index (length l) k ;;
  match nth_error l c with
  | Some x => Ok (x, firstn c l ++ skipn (S c) l)
  | None => Raise IndexError
  end.

(** A list comprehension [[fn(x) for x in xs]] whose body may raise. *)
Fixpoint comprehension {A B : Type} (fn : A -> result B) (xs : list A)
  : result (list B) :=
  match xs with
  | [] => Ok []
  | x :: xs' =>
    y <- fn x ;;
    ys <- comprehension fn xs' ;;
    Ok (y :: ys)
  end.

(** [get_filter(N, kernel_func, lamb)] *)
Definition get_filter (N : Z) (kernel_func : R -> R) (lamb : R)
  : result Np.vector :=
  e0 <- matrix_entry 0 0 N kernel_func ;;
  let m := [ (lamb * e0 + 1)%R ] in
  for_each (range2 1 (N ^ 2)) (fun m j =>
    e <- matrix_entry 0 j N kernel_func ;;
    Ok (m ++ [ (lamb * e)%R ])) m.

(** [get_cyclic_reps(N)]: integer matrices as lists of rows. *)
Definition get_cyclic_reps (N : Z) : result (list (list (list Z))) :=
  let A := for_each_pure (range_down (N - 1) (-1)) (fun A i =>
             A ++ [ map (fun j => if j =? i then 1 else 0) (range N) ]) [] in
  perms <- for_each (range N) (fun perms i =>
             rows <- comprehension (fun j => list_getitem A (i - j)) (range N) ;;
             Ok (perms ++ [ rows ])) [] ;;
  popped <- list_pop perms (-1) ;;
  let I := fst popped in
  let perms := snd popped in
  Ok ([ I ] ++ perms).

(** [np.kron(a, b)] on two-dimensional integer arrays: block (i, j) of the
    result is [a[i, j] * b]. *)
Definition kron (a b : list (list Z)) : list (list Z) :=
  flat_map (fun row_a =>
    map (fun row_b =>
      flat_map (fun x => map (fun y => x * y) row_b) row_a) b) a.

(** [np.argmax] of the non-empty array [x :: xs], scanned from index 1
    with [x] the best value so far: the first index of the maximum. *)
Fixpoint argmax_from (xs : list Z) (i best best_value : Z) : Z :=
  match xs with
  | [] => best
  | x :: xs' =>
    if best_value <? x then argmax_from xs' (i + 1) i x
    else argmax_from xs' (i + 1) best best_value
  end.

(** The sort key [np.argmax(mat[:,0])].  An array without rows has the
    shape (0, 0) here, where [mat[:,0]] raises [IndexError] as it does
    for a row without entries. *)
Definition first_column_argmax (mat : list (list Z)) : result Z :=
  column <- comprehension (fun row => list_getitem row 0) mat ;;
  match column with
  | [] => Raise IndexError
  | x :: xs => Ok (argmax_from xs 1 0 x)
  end.

(** [sorted(xs, key=key)]: the keys are computed first, then the list is
    sorted by a stable sort, elements of equal key keeping their order. *)
Fixpoint insert_by_key {A : Type} (kx : Z * A) (l : list (Z * A))
  : list (Z * A) :=
  match l with
  | [] => [kx]
  | ky :: l' =>
    if fst kx <=? fst ky then kx :: l else ky :: insert_by_key kx l'
  end.

Definition stable_sort {A : Type} (l : list (Z * A)) : list (Z * A) :=
  fold_right insert_by_key [] l.

Definition sorted {A : Type} (xs : list A) (key : A -> result Z)
  : result (list A) :=
  keys <- comprehension key xs ;;
  Ok (map snd (stable_sort (combine keys xs))).

(** [mat.T] *)
Definition transpose (mat : list (list Z)) : list (list Z) :=
  map (fun k => map (fun row => nth k row 0) mat) (seq 0 (length (hd [] mat))).

(** [get_cyclic_product_reps(N)] *)
Definition get_cyclic_product_reps (N : Z) : result (list (list (list Z))) :=
  group1 <- get_cyclic_reps N ;;
  group2 <- get_cyclic_reps N ;;
  let reps := for_each_pure group1 (fun reps mat1 =>
                for_each_pure group2 (fun reps mat2 =>
                  reps ++ [ kron mat1 mat2 ]) reps) [] in
  sorted_reps <- sorted reps first_column_argmax ;;
  Ok (map transpose sorted_reps).

(** The [rows x cols] integer table of [F], as a list of rows. *)
Definition table (rows cols : Z) (F : Z -> Z -> Z) : list (list Z) :=
  map (fun a => map (F a) (range cols)) (range rows).

(** The wrapped index difference: the flattened index of the lattice
    offset from point [i] to point [j]. *)
Definition offset (n i j : Z) : Z :=
  ((j / n - i / n) mod n) * n + ((j mod n - i mod n) mod n).

(** The sum of the absolute values of a row without its entry [i]. *)
Definition off_diagonal (row : Np.vector) (i : nat) : R :=
  Np.sum (map Rabs (firstn i row ++ skipn (S i) row)).

(** ** The same lattice code in binary64

    The definitions above compute in exact real arithmetic.  The module
    below repeats [matrix_entry], [cross_correlation] and [get_filter] on
    IEEE 754 binary64 numbers, the floats Python and NumPy compute with,
    so that what rounding, infinities and NaN do to the operator can be
    stated and evaluated. *)

Module Binary64.

(** A Python integer as a float; exact below 2^53 in absolute value,
    which covers every index and resolution the program forms. *)
Definition of_int (z : Z) : float :=
  if z <? 0 then PrimFloat.opp (PrimFloat.of_uint63 (Uint63.of_Z (- z)))
  else PrimFloat.of_uint63 (Uint63.of_Z z).

Definition vector := list float.
Definition matrix := list (list float).

(** [np.zeros([r, c])] *)
Definition zeros (r c : Z) : matrix :=
  repeat (repeat 0%float (Z.to_nat c)) (Z.to_nat r).

(** [a[i, j]] *)
Definition getitem (a : matrix) (i j : Z) : result float :=
  r <- Np.norm_index (length a) i ;;
  let row := nth r a [] in
  c <- Np.norm_index (length row) j ;;
  Ok (nth c row 0%float).

(** [a[i, j] = v] *)
Definition setitem (a : matrix) (i j : Z) (v : float) : result matrix :=
  r <- Np.norm_index (length a) i ;;
  let row := nth r a [] in
  c <- Np.norm_index (length row) j ;;
  Ok (Np.update a r (Np.update row c v)).

(** Element-wise [p - q] and [np.abs]. *)
Fixpoint sub (p q : vector) : vector :=
  match p, q with
  | x :: p', y :: q' => (x - y)%float :: sub p' q'
  | _, _ => []
  end.

Definition abs (p : vector) : vector := map PrimFloat.abs p.

(** [np.where(d < 1/2, d, 1 - d)], element by element. *)
Definition where_lt_half (d : vector) : vector :=
  map (fun x => if (x <? 0.5)%float then x else (1 - x)%float) d.

(** [np.sum]: the entries added from left to right. *)
Definition sum (p : vector) : float :=
  match p with
  | [] => 0%float
  | x :: p' => fold_left PrimFloat.add p' x
  end.

Definition has_shape (a : matrix) (rows cols : nat) : Prop :=
  length a = rows /\ forall row, In row a -> length row = cols.

(** [x = (i//n)/n; y = (i%n)/n] *)
Definition lattice_point (i n : Z) : vector :=
  [ (of_int (i / n) / of_int n)%float ; (of_int (i mod n) / of_int n)%float ].

Definition lattice_distance (point1 point2 : vector) : float :=
  let diff := abs (sub point1 point2) in
  sum (where_lt_half diff).

(** [matrix_entry(i, j, n, kernel_func)] *)
Definition matrix_entry (i j n : Z) (kernel_func : float -> float)
  : result float :=
  if n =? 0 then Raise ZeroDivisionError
  else
    let point1 := lattice_point i n in
    let point2 := lattice_point j n in
    let distance := lattice_distance point1 point2 in
    let entry := (of_int 1 / of_int (n ^ 2) * kernel_func distance)%float in
    Ok entry.

(** [cross_correlation(n, kernel_func, lamb)] *)
Definition cross_correlation (n : Z) (kernel_func : float -> float)
           (lamb : float) : result matrix :=
  let result0 := zeros (n ^ 2) (n ^ 2) in
  for_each (range (n ^ 2)) (fun result i =>
    for_each (range (n ^ 2)) (fun result j =>
      e <- matrix_entry i j n kernel_func ;;
      result <- setitem result i j (lamb * e)%float ;;
      if i =? j then
        old <- getitem result i j ;;
        setitem result i j (old + 1)%float
      else Ok result) result) result0.

(** [v[k]] on a one-dimensional array *)
Definition item (v : vector) (k : Z) : result float :=
  c <- Np.norm_index (length v) k ;;
  Ok (nth c v 0%float).

(** [get_filter(N, kernel_func, lamb)] *)
Definition get_filter (N : Z) (kernel_func : float -> float) (lamb : float)
  : result vector :=
  e0 <- matrix_entry 0 0 N kernel_func ;;
  let m := [ (lamb * e0 + 1)%float ] in
  for_each (range2 1 (N ^ 2)) (fun m j =>
    e <- matrix_entry 0 j N kernel_func ;;
    Ok (m ++ [ (lamb * e)%float ])) m.

(** The contribution of one axis to the distance between the lattice
    coordinates [u/n] and [v/n]. *)
Definition axis (n u v : Z) : float :=
  let d := PrimFloat.abs (of_int u / of_int n - of_int v / of_int n)%float in
  if (d <? 0.5)%float then d else (1 - d)%float.

(** The same contribution computed from the integer difference [m]. *)
Definition wrapped (n m : Z) : float :=
  let d := (of_int m / of_int n)%float in
  if (d <? 0.5)%float then d else (1 - d)%float.

(** The resolutions the study runs, and the two smaller powers of two. *)
Definition resolutions : list Z := [1; 2; 4; 8; 16; 32; 64].

End Binary64.

(** ** The print statements of the two study routines, as token lines

    Python compiles a whole file before it runs its first statement, so a
    line that is not a statement of the grammar stops the program with a
    [SyntaxError] whatever function the line sits in.  The lines below are
    the diagnostic [print] calls of [plot_solution] (136-138) and of
    [plot_error] (214-215), token by token. *)

Module Syntax.

Inductive token : Type :=
| NAME (s : string)
| NUMBER (s : string)
| STRING (s : string)
| OP (s : string)
| LPAR
| RPAR
| DOT
| COMMA.

Inductive nonterminal : Type := Expr | Primary | Trailers | Args.

(** Adjacent string literals form one atom. *)
Fixpoint more_strings (ts : list token) : list token :=
  match ts with
  | STRING _ :: rest => more_strings rest
  | _ => ts
  end.

(** A recogniser for call expressions: what is left of [ts] after the
    longest [nt], or [None] when [ts] does not start with one.
      Expr     ::= Primary (OP Primary)*
      Primary  ::= (NAME | NUMBER | STRING+ | '(' Expr ')') Trailers
      Trailers ::= ('.' NAME | '(' [Args] ')')*
      Args     ::= Expr (',' Expr)*                                     *)
Fixpoint parse (fuel : nat) (nt : nonterminal) (ts : list token)
  : option (list token) :=
  match fuel with
  | O => None
  | S fuel' =>
    match nt with
    | Expr =>
      match parse fuel' Primary ts with
      | Some (OP _ :: rest) => parse fuel' Expr rest
      | r => r
      end
    | Primary =>
      match ts with
      | NAME _ :: rest => parse fuel' Trailers rest
      | NUMBER _ :: rest => parse fuel' Trailers rest
      | STRING _ :: rest => parse fuel' Trailers (more_strings rest)
      | LPAR :: rest =>
        match parse fuel' Expr rest with
        | Some (RPAR :: rest') => parse fuel' Trailers rest'
        | _ => None
        end
      | _ => None
      end
    | Trailers =>
      match ts with
      | DOT :: NAME _ :: rest => parse fuel' Trailers rest
      | LPAR :: RPAR :: rest => parse fuel' Trailers rest
      | LPAR :: rest =>
        match parse fuel' Args rest with
        | Some (RPAR :: rest') => parse fuel' Trailers rest'
        | _ => None
        end
      | _ => Some ts
      end
    | Args =>
      match parse fuel' Expr ts with
      | Some (COMMA :: rest) => parse fuel' Args rest
      | r => r
      end
    end
  end.

(** An expression statement: the whole line is one expression.  Every
    call of [parse] either consumes a token or moves down the grammar, so
    four steps per token are enough. *)
Definition is_statement (line : list token) : bool :=
  match parse (4 * length line + 4) Expr line with
  | Some [] => true
  | _ => false
  end.

(** [print("n = " + str(n))] *)
Definition print_n : list token :=
  [NAME "print"; LPAR; STRING "n = "; OP "+"; NAME "str"; LPAR; NAME "n";
   RPAR; RPAR].

(** [print("Condition number = " + str(np.round(kappa,4)))] *)
Definition print_kappa : list token :=
  [NAME "print"; LPAR; STRING "Condition number = "; OP "+"; NAME "str"; LPAR;
   NAME "np"; DOT; NAME "round"; LPAR; NAME "kappa"; COMMA; NUMBER "4"; RPAR;
   RPAR; RPAR].

(** [print("Minimum singular value magnitude  = "np.min(np.abs(eigs)))] *)
Definition print_min : list token :=
  [NAME "print"; LPAR; STRING "Minimum singular value magnitude  = ";
   NAME "np"; DOT; NAME "min"; LPAR; NAME "np"; DOT; NAME "abs"; LPAR;
   NAME "eigs"; RPAR; RPAR; RPAR].

Definition line_136 : nat * list token := (136%nat, print_n).
Definition line_137 : nat * list token := (137%nat, print_kappa).
Definition line_138 : nat * list token := (138%nat, print_min).
Definition line_214 : nat * list token := (214%nat, print_n).
Definition line_215 : nat * list token := (215%nat, print_kappa).

Definition print_lines : list (nat * list token) :=
  [line_136; line_137; line_138; line_214; line_215].

(** Compiling the file: the first line that is not a statement raises. *)
Fixpoint compile (lines : list (nat * list token)) : result unit :=
  match lines with
  | [] => Ok tt
  | (lineno, line) :: rest =>
    if is_statement line then compile rest
    else Raise (SyntaxError lineno)
  end.

End Syntax.

(* ===================================================================== *)
(** * Theorems *)
(* ===================================================================== *)

(** ** Loops over [range] *)

Section Loops.

Context {S : Type}.

Lemma for_each_app {A : Type} (xs ys : list A) (body : S -> A -> result S) (s : S) :
  for_each (xs ++ ys) body s = Py.bind (for_each xs body s) (for_each ys body).
Proof.
  revert s; induction xs as [|x xs IH]; intros s; simpl; [reflexivity|].
  destruct (body s x); simpl; auto.
Qed.

Lemma range_succ (k : nat) :
  range (Z.of_nat (Datatypes.S k)) = range (Z.of_nat k) ++ [Z.of_nat k].
Proof.
  unfold range. rewrite !Nat2Z.id, seq_S, map_app. reflexivity.
Qed.

Lemma range_nonpos (n : Z) : n <= 0 -> range n = [].
Proof.
  intros Hn. unfold range. replace (Z.to_nat n) with 0%nat by lia. reflexivity.
Qed.

Lemma range_length (n : Z) : length (range n) = Z.to_nat n.
Proof. unfold range. rewrite length_map, length_seq. reflexivity. Qed.

(** A loop invariant [P k s], "the state is [s] before iteration [k]", is
    carried through the whole loop when each iteration returns and
    re-establishes it. *)
Lemma for_range_invariant (P : nat -> S -> Prop) (body : S -> Z -> result S)
      (m : nat) (s : S) :
  P 0%nat s ->
  (forall k t, (k < m)%nat -> P k t ->
     exists t', body t (Z.of_nat k) = Ok t' /\ P (Datatypes.S k) t') ->
  exists t, for_each (range (Z.of_nat m)) body s = Ok t /\ P m t.
Proof.
  intros H0 Hstep. induction m as [|m IH].
  - exists s. split; [reflexivity | exact H0].
  - destruct IH as (t & Ht & HP).
    { intros k u Hk. apply Hstep. lia. }
    destruct (Hstep m t (Nat.lt_succ_diag_r m) HP) as (t' & Hb & HP').
    exists t'. split; [|exact HP'].
    rewrite range_succ, for_each_app, Ht. simpl. rewrite Hb. reflexivity.
Qed.

Lemma for_range_pure_invariant (P : nat -> S -> Prop) (body : S -> Z -> S)
      (m : nat) (s : S) :
  P 0%nat s ->
  (forall k t, (k < m)%nat -> P k t -> P (Datatypes.S k) (body t (Z.of_nat k))) ->
  P m (for_each_pure (range (Z.of_nat m)) body s).
Proof.
  intros H0 Hstep. induction m as [|m IH].
  - exact H0.
  - unfold for_each_pure in *. rewrite range_succ, fold_left_app. simpl.
    apply Hstep; [lia|]. apply IH. intros k u Hk. apply Hstep. lia.
Qed.

End Loops.

(** ** Indexing NumPy arrays *)

Lemma norm_index_in_range (len : nat) (k : Z) :
  0 <= k < Z.of_nat len -> Np.norm_index len k = Ok (Z.to_nat k).
Proof.
  intros Hk. unfold Np.norm_index.
  destruct (Z.leb_spec 0 k); [|lia]. destruct (Z.ltb_spec k (Z.of_nat len)); [|lia].
  reflexivity.
Qed.

Lemma update_length {A : Type} (l : list A) (k : nat) (v : A) :
  length (Np.update l k v) = length l.
Proof.
  revert k; induction l as [|x l IH]; intros [|k]; simpl; auto.
Qed.

Lemma nth_update_eq {A : Type} (l : list A) (k : nat) (v d : A) :
  (k < length l)%nat -> nth k (Np.update l k v) d = v.
Proof.
  revert k; induction l as [|x l IH]; intros [|k] Hk; simpl in *; try lia; auto.
  apply IH. lia.
Qed.

Lemma nth_update_ne {A : Type} (l : list A) (k k' : nat) (v d : A) :
  k <> k' -> nth k' (Np.update l k v) d = nth k' l d.
Proof.
  revert k k'; induction l as [|x l IH]; intros [|k] [|k'] Hk; simpl; auto; try lia.
Qed.

Lemma In_update {A : Type} (l : list A) (k : nat) (v x : A) :
  In x (Np.update l k v) -> x = v \/ In x l.
Proof.
  revert k; induction l as [|y l IH]; intros [|k]; simpl; intros H; auto.
  - destruct H; auto.
  - destruct H as [H|H]; auto. destruct (IH _ H); auto.
Qed.

Lemma zeros_shape (r c : Z) : Np.has_shape (Np.zeros r c) (Z.to_nat r) (Z.to_nat c).
Proof.
  unfold Np.has_shape, Np.zeros. split.
  - apply repeat_length.
  - intros row Hin. apply repeat_spec in Hin. subst. apply repeat_length.
Qed.

Lemma getitem_zeros (r c i j : Z) :
  0 <= i < r -> 0 <= j < c -> Np.getitem (Np.zeros r c) i j = Ok 0%R.
Proof.
  intros Hi Hj. unfold Np.getitem, Np.zeros.
  rewrite repeat_length, norm_index_in_range by lia. simpl.
  rewrite nth_repeat_lt by lia.
  rewrite repeat_length, norm_index_in_range by lia. simpl.
  rewrite nth_repeat_lt by lia. reflexivity.
Qed.

Section Shaped.

Variables (a : Np.matrix) (rows cols : nat).
Hypothesis Hshape : Np.has_shape a rows cols.

Lemma shape_row (i : Z) :
  0 <= i < Z.of_nat rows -> length (nth (Z.to_nat i) a []) = cols.
Proof.
  intros Hi. destruct Hshape as [Hr Hc]. apply Hc, nth_In. lia.
Qed.

(** An in-range assignment returns, keeps the shape, sets the entry and
    leaves every other entry alone. *)
Lemma setitem_spec (i j : Z) (v : R) :
  0 <= i < Z.of_nat rows -> 0 <= j < Z.of_nat cols ->
  exists a', Np.setitem a i j v = Ok a'
    /\ Np.has_shape a' rows cols
    /\ forall x y, 0 <= x < Z.of_nat rows -> 0 <= y < Z.of_nat cols ->
         Np.getitem a' x y =
         if (x =? i) && (y =? j) then Ok v else Np.getitem a x y.
Proof.
  intros Hi Hj. pose proof (shape_row i Hi) as Hrow.
  destruct Hshape as [Hr Hc].
  unfold Np.setitem. rewrite Hr, norm_index_in_range by lia. simpl.
  rewrite Hrow, norm_index_in_range by lia. simpl.
  eexists. split; [reflexivity|]. split.
  - split; [rewrite update_length; exact Hr|].
    intros row Hin. apply In_update in Hin. destruct Hin as [->|Hin]; auto.
    rewrite update_length. exact Hrow.
  - intros x y Hx Hy. unfold Np.getitem.
    rewrite update_length, Hr, !norm_index_in_range by lia. simpl.
    destruct (Z.eqb_spec x i) as [->|Hxi]; simpl.
    + rewrite nth_update_eq by lia.
      rewrite update_length, Hrow, !norm_index_in_range by lia. simpl.
      destruct (Z.eqb_spec y j) as [->|Hyj].
      * rewrite nth_update_eq by lia. reflexivity.
      * rewrite nth_update_ne by lia. reflexivity.
    + rewrite nth_update_ne by lia. reflexivity.
Qed.

End Shaped.

(** ** The lattice distance *)

Lemma lattice_point_point (k n : Z) :
  lattice_point k n = [fst (point k n); snd (point k n)].
Proof. reflexivity. Qed.

Lemma lattice_distance_toroidal (x1 y1 x2 y2 : R) :
  lattice_distance [x1; y1] [x2; y2] = toroidal_distance (x1, y1) (x2, y2).
Proof.
  unfold lattice_distance, toroidal_distance, wrap. simpl. ring.
Qed.

Lemma matrix_entry_spec (i j n : Z) (kernel_func : R -> R) :
  n <> 0 ->
  matrix_entry i j n kernel_func =
  Ok (1 / IZR (n ^ 2) * kernel_func (toroidal_distance (point i n) (point j n)))%R.
Proof.
  intros Hn. unfold matrix_entry.
  destruct (Z.eqb_spec n 0) as [|_]; [contradiction|].
  rewrite !lattice_point_point, lattice_distance_toroidal.
  rewrite <- !surjective_pairing. reflexivity.
Qed.

Lemma wrap_bounds (d : R) : (0 <= d <= 1)%R -> (0 <= wrap d <= 1 / 2)%R.
Proof. intros Hd. unfold wrap. destruct (Rlt_dec d (1 / 2)); lra. Qed.

Lemma toroidal_distance_sym (p q : R * R) :
  toroidal_distance p q = toroidal_distance q p.
Proof.
  unfold toroidal_distance.
  rewrite (Rabs_minus_sym (fst p)), (Rabs_minus_sym (snd p)). reflexivity.
Qed.

(** ** The operator built by [cross_correlation] *)

Section Operator.

Variables (n : Z) (kernel_func : R -> R) (lamb : R).
Hypothesis Hn : n <> 0.

(** The value the two loops leave at [(x, y)]. *)
Let cell (x y : Z) : R :=
  (lamb * (1 / IZR (n ^ 2) * kernel_func (toroidal_distance (point x n) (point y n)))
   + delta x y)%R.

(** The entries assigned before iteration [(i0, j0)], in loop order. *)
Let assigned (i0 j0 x y : Z) : bool :=
  (x <? i0) || ((x =? i0) && (y <? j0)).

Let m : nat := Z.to_nat (n ^ 2).

Let inv (i0 j0 : Z) (a : Np.matrix) : Prop :=
  Np.has_shape a m m /\
  forall x y, 0 <= x < n ^ 2 -> 0 <= y < n ^ 2 ->
    Np.getitem a x y = Ok (if assigned i0 j0 x y then cell x y else 0%R).

Let body (i : Z) (result : Np.matrix) (j : Z) : Py.result Np.matrix :=
  e <- matrix_entry i j n kernel_func ;;
  result <- Np.setitem result i j (lamb * e)%R ;;
  if i =? j then
    old <- Np.getitem result i j ;;
    Np.setitem result i j (old + 1)%R
  else Ok result.

Lemma m_square : Z.of_nat m = n ^ 2.
Proof. unfold m. rewrite Z2Nat.id; [reflexivity | nia]. Qed.

Lemma body_step (i j : Z) (a : Np.matrix) :
  0 <= i < n ^ 2 -> 0 <= j < n ^ 2 -> inv i j a ->
  exists a', body i a j = Ok a' /\ inv i (j + 1) a'.
Proof.
  intros Hi Hj [Hshape Hget]. pose proof m_square as Hm.
  unfold body. rewrite matrix_entry_spec by lia. cbn [Py.bind].
  set (e := (1 / IZR (n ^ 2) * kernel_func (toroidal_distance (point i n) (point j n)))%R).
  destruct (setitem_spec a m m Hshape i j (lamb * e)%R) as (a1 & -> & Hs1 & Hg1);
    try lia.
  cbn [Py.bind].
  assert (Hfinal : exists a',
    (if i =? j
     then old <- Np.getitem a1 i j ;; Np.setitem a1 i j (old + 1)%R
     else Ok a1) = Ok a'
    /\ Np.has_shape a' m m
    /\ forall x y, 0 <= x < n ^ 2 -> 0 <= y < n ^ 2 ->
         Np.getitem a' x y =
         if (x =? i) && (y =? j) then Ok (cell i j) else Np.getitem a x y).
  { destruct (Z.eqb_spec i j) as [Heq|Hne].
    - rewrite Hg1 by lia. rewrite !Z.eqb_refl. cbn [Py.bind andb].
      destruct (setitem_spec a1 m m Hs1 i j (lamb * e + 1)%R)
        as (a2 & -> & Hs2 & Hg2); try lia.
      exists a2. split; [reflexivity|]. split; [exact Hs2|].
      intros x y Hx Hy. rewrite Hg2 by lia.
      destruct ((x =? i) && (y =? j)) eqn:Hxy.
      + unfold cell, delta. subst j. rewrite Z.eqb_refl. reflexivity.
      + rewrite Hg1 by lia. rewrite Hxy. reflexivity.
    - exists a1. split; [reflexivity|]. split; [exact Hs1|].
      intros x y Hx Hy. rewrite Hg1 by lia.
      destruct ((x =? i) && (y =? j)) eqn:Hxy; [|reflexivity].
      unfold cell, delta. destruct (Z.eqb_spec i j); [contradiction|].
      f_equal. fold e. ring. }
  destruct Hfinal as (a' & -> & Hs' & Hg').
  exists a'. split; [reflexivity|]. split; [exact Hs'|].
  intros x y Hx Hy. rewrite Hg' by lia. unfold assigned.
  destruct (Z.eqb_spec x i) as [->|Hxi]; simpl.
  - destruct (Z.eqb_spec y j) as [->|Hyj].
    + destruct (Z.ltb_spec i i); [lia|]. destruct (Z.ltb_spec j (j + 1)); [|lia].
      reflexivity.
    + rewrite Hget by lia. unfold assigned. rewrite Z.eqb_refl. simpl.
      destruct (Z.ltb_spec y j), (Z.ltb_spec y (j + 1)); try lia; reflexivity.
  - rewrite Hget by lia. unfold assigned.
    destruct (Z.eqb_spec x i); [contradiction|]. reflexivity.
Qed.

Lemma row_loop (i : Z) (a : Np.matrix) :
  0 <= i < n ^ 2 -> inv i 0 a ->
  exists a', for_each (range (n ^ 2)) (body i) a = Ok a' /\ inv (i + 1) 0 a'.
Proof.
  intros Hi Ha. pose proof m_square as Hm.
  destruct (for_range_invariant (fun k t => inv i (Z.of_nat k) t) (body i) m a)
    as (a' & Hrun & Hinv).
  - exact Ha.
  - intros k t Hk Ht.
    destruct (body_step i (Z.of_nat k) t) as (t' & Hb & Ht'); try lia; auto.
    exists t'. split; [exact Hb|]. rewrite Nat2Z.inj_succ. exact Ht'.
  - rewrite Hm in Hrun. exists a'. split; [exact Hrun|].
    destruct Hinv as [Hs Hg]. split; [exact Hs|].
    intros x y Hx Hy. rewrite Hg by lia. unfold assigned. rewrite Hm.
    destruct (Z.ltb_spec x i), (Z.ltb_spec x (i + 1)), (Z.eqb_spec x i),
      (Z.eqb_spec x (i + 1)), (Z.ltb_spec y (n ^ 2)), (Z.ltb_spec y 0);
      simpl; try lia; reflexivity.
Qed.

(** For every [n] but 0, negative ones included, [cross_correlation]
    returns an [n^2 x n^2] matrix whose entry [(i, j)] is
    [lamb * matrix_entry(i, j) + delta i j]. *)
Lemma cross_correlation_entries_nonzero :
  exists A, cross_correlation n kernel_func lamb = Ok A
    /\ Np.has_shape A (Z.to_nat (n ^ 2)) (Z.to_nat (n ^ 2))
    /\ forall i j, 0 <= i < n ^ 2 -> 0 <= j < n ^ 2 ->
         Np.getitem A i j = Ok (cell i j).
Proof.
  pose proof m_square as Hm.
  destruct (for_range_invariant (fun k t => inv (Z.of_nat k) 0 t)
              (fun result i => for_each (range (n ^ 2)) (body i) result)
              m (Np.zeros (n ^ 2) (n ^ 2)))
    as (A & Hrun & Hs & Hg).
  - split; [apply zeros_shape|].
    intros x y Hx Hy. rewrite getitem_zeros by lia. unfold assigned. simpl.
    destruct (Z.ltb_spec x 0), (Z.eqb_spec x 0), (Z.ltb_spec y 0);
      simpl; try lia; reflexivity.
  - intros k t Hk Ht.
    destruct (row_loop (Z.of_nat k) t) as (t' & Hb & Ht'); try lia; auto.
    exists t'. split; [exact Hb|]. rewrite Nat2Z.inj_succ. exact Ht'.
  - rewrite Hm in Hrun. exists A. split; [exact Hrun|]. split; [exact Hs|].
    intros i j Hi Hj. rewrite Hg by lia. unfold assigned. rewrite Hm.
    destruct (Z.ltb_spec i (n ^ 2)); [reflexivity | lia].
Qed.

End Operator.

(** [cross_correlation] returns an [n^2 x n^2] matrix whose entry [(i, j)]
    is [lamb * matrix_entry(i, j) + delta i j]. *)
Lemma cross_correlation_entries (n : Z) (kernel_func : R -> R) (lamb : R) :
  1 <= n ->
  exists A, cross_correlation n kernel_func lamb = Ok A
    /\ Np.has_shape A (Z.to_nat (n ^ 2)) (Z.to_nat (n ^ 2))
    /\ forall i j, 0 <= i < n ^ 2 -> 0 <= j < n ^ 2 ->
         Np.getitem A i j =
         Ok (lamb * (1 / IZR (n ^ 2)
                     * kernel_func (toroidal_distance (point i n) (point j n)))
             + delta i j)%R.
Proof.
  intros Hn. apply cross_correlation_entries_nonzero. lia.
Qed.

(** Case analysis on every sign test and every [< 1/2] test of a distance. *)
Ltac split_distance :=
  unfold toroidal_distance, wrap, Rabs; cbn [fst snd];
  repeat match goal with
         | |- context [Rcase_abs ?x] => destruct (Rcase_abs x)
         | |- context [Rlt_dec ?x ?y] => destruct (Rlt_dec x y)
         end.

Lemma toroidal_distance_self (p : R * R) : toroidal_distance p p = 0%R.
Proof. split_distance; lra. Qed.

Lemma toroidal_distance_bounds (p q : R * R) :
  (0 <= fst p < 1)%R -> (0 <= snd p < 1)%R ->
  (0 <= fst q < 1)%R -> (0 <= snd q < 1)%R ->
  (0 <= toroidal_distance p q <= 1)%R.
Proof. intros Hp1 Hp2 Hq1 Hq2. split_distance; lra. Qed.

(** C1: for n >= 1, any scalar lamb and any kernel, [cross_correlation]
    returns a matrix A with, for all i, j in [0, n^2),
    A[i,j] = (lamb / n^2) * kernel(toroidal_distance(point(i,n), point(j,n)))
    plus 1 when i = j and plus nothing when i <> j. *)
Theorem cross_correlation_operator (n : Z) (kernel_func : R -> R) (lamb : R) :
  1 <= n ->
  exists A, cross_correlation n kernel_func lamb = Ok A
    /\ forall i j, 0 <= i < n ^ 2 -> 0 <= j < n ^ 2 ->
         Np.getitem A i j =
         Ok (lamb / IZR (n ^ 2)
               * kernel_func (toroidal_distance (point i n) (point j n))
             + (if i =? j then 1 else 0))%R.
Proof.
  intros Hn.
  destruct (cross_correlation_entries n kernel_func lamb Hn) as (A & HA & _ & Hg).
  exists A. split; [exact HA|].
  intros i j Hi Hj. rewrite Hg by assumption. f_equal. unfold delta.
  assert (IZR (n ^ 2) <> 0)%R by (apply not_0_IZR; nia).
  field. assumption.
Qed.

Lemma cross_correlation_operator_witness :
  exists A, cross_correlation 2 exp_kernel 3 = Ok A
    /\ forall i j, 0 <= i < 2 ^ 2 -> 0 <= j < 2 ^ 2 ->
         Np.getitem A i j =
         Ok (3 / IZR (2 ^ 2)
               * exp_kernel (toroidal_distance (point i 2) (point j 2))
             + (if i =? j then 1 else 0))%R.
Proof. apply (cross_correlation_operator 2 exp_kernel 3). lia. Defined.

(** C5: on points of the unit square [0,1)^2 the wrap-around Manhattan
    distance of [matrix_entry] is symmetric, is 0 from a point to itself,
    and lies between 0 and 1. *)
Theorem lattice_distance_metric (x1 y1 x2 y2 : R) :
  (0 <= x1 < 1)%R -> (0 <= y1 < 1)%R -> (0 <= x2 < 1)%R -> (0 <= y2 < 1)%R ->
  lattice_distance [x1; y1] [x2; y2] = lattice_distance [x2; y2] [x1; y1]
  /\ lattice_distance [x1; y1] [x1; y1] = 0%R
  /\ (0 <= lattice_distance [x1; y1] [x2; y2] <= 1)%R.
Proof.
  intros Hx1 Hy1 Hx2 Hy2. rewrite !lattice_distance_toroidal.
  split; [apply toroidal_distance_sym|].
  split; [apply toroidal_distance_self|].
  apply toroidal_distance_bounds; assumption.
Qed.

Lemma lattice_distance_metric_witness :
  (lattice_distance [0; 1 / 4] [3 / 4; 1 / 2]
   = lattice_distance [3 / 4; 1 / 2] [0; 1 / 4]
   /\ lattice_distance [0; 1 / 4] [0; 1 / 4] = 0
   /\ 0 <= lattice_distance [0; 1 / 4] [3 / 4; 1 / 2] <= 1)%R.
Proof. apply (lattice_distance_metric 0 (1 / 4) (3 / 4) (1 / 2)); lra. Defined.

(** C7: for n >= 1, any scalar lamb and any kernel, the matrix returned by
    [cross_correlation] is symmetric: A[i,j] = A[j,i] on [0, n^2). *)
Theorem cross_correlation_symmetric (n : Z) (kernel_func : R -> R) (lamb : R) :
  1 <= n ->
  exists A, cross_correlation n kernel_func lamb = Ok A
    /\ forall i j, 0 <= i < n ^ 2 -> 0 <= j < n ^ 2 ->
         exists v, Np.getitem A i j = Ok v /\ Np.getitem A j i = Ok v.
Proof.
  intros Hn.
  destruct (cross_correlation_entries n kernel_func lamb Hn) as (A & HA & _ & Hg).
  exists A. split; [exact HA|].
  intros i j Hi Hj. eexists. split; [apply Hg; assumption|].
  rewrite Hg by assumption.
  rewrite (toroidal_distance_sym (point j n)). unfold delta.
  rewrite (Z.eqb_sym j i). reflexivity.
Qed.

Lemma cross_correlation_symmetric_witness :
  exists A, cross_correlation 2 exp_kernel 3 = Ok A
    /\ forall i j, 0 <= i < 2 ^ 2 -> 0 <= j < 2 ^ 2 ->
         exists v, Np.getitem A i j = Ok v /\ Np.getitem A j i = Ok v.
Proof. apply (cross_correlation_symmetric 2 exp_kernel 3). lia. Defined.

(** ** The index-to-point map *)

Lemma IZR_div_inj (n a b : Z) :
  n <> 0 -> (IZR a / IZR n = IZR b / IZR n)%R -> a = b.
Proof.
  intros Hn H. apply eq_IZR.
  assert (IZR n <> 0)%R by (apply not_0_IZR; exact Hn).
  unfold Rdiv in H. apply Rmult_eq_reg_r in H; [exact H|].
  apply Rinv_neq_0_compat. assumption.
Qed.

Lemma index_coordinates (n i : Z) :
  1 <= n -> 0 <= i < n ^ 2 -> 0 <= i / n < n /\ 0 <= i mod n < n.
Proof.
  intros Hn Hi. split.
  - split; [apply Z.div_pos; lia|]. apply Z.div_lt_upper_bound; nia.
  - apply Z.mod_pos_bound. lia.
Qed.

Lemma flatten_coordinates (n a b : Z) :
  1 <= n -> 0 <= a < n -> 0 <= b < n ->
  0 <= a * n + b < n ^ 2 /\ (a * n + b) / n = a /\ (a * n + b) mod n = b.
Proof.
  intros Hn Ha Hb. split; [nia|]. split.
  - symmetry. apply (Z.div_unique_pos _ _ _ b); lia.
  - symmetry. apply (Z.mod_unique_pos _ _ a); lia.
Qed.

Lemma lattice_point_inj (n i j : Z) :
  1 <= n -> lattice_point i n = lattice_point j n -> i = j.
Proof.
  intros Hn H. unfold lattice_point in H. injection H as Hx Hy.
  apply IZR_div_inj in Hx; [|lia]. apply IZR_div_inj in Hy; [|lia].
  rewrite (Z.div_mod i n), (Z.div_mod j n) by lia. congruence.
Qed.

(** C6: for n >= 1 the map i |-> ((i div n)/n, (i mod n)/n) is injective
    on [0, n^2), every image is a grid point (a/n, b/n) with a, b in
    [0, n), and every grid point is the image of exactly one index. *)
Theorem lattice_point_bijective (n : Z) :
  1 <= n ->
  (forall i j, 0 <= i < n ^ 2 -> 0 <= j < n ^ 2 ->
     lattice_point i n = lattice_point j n -> i = j)
  /\ (forall i, 0 <= i < n ^ 2 ->
        exists a b, 0 <= a < n /\ 0 <= b < n
          /\ lattice_point i n = [(IZR a / IZR n)%R; (IZR b / IZR n)%R])
  /\ (forall a b, 0 <= a < n -> 0 <= b < n ->
        exists i, 0 <= i < n ^ 2
          /\ lattice_point i n = [(IZR a / IZR n)%R; (IZR b / IZR n)%R]
          /\ forall i', 0 <= i' < n ^ 2 ->
               lattice_point i' n = [(IZR a / IZR n)%R; (IZR b / IZR n)%R] ->
               i' = i).
Proof.
  intros Hn. split; [|split].
  - intros i j _ _. apply lattice_point_inj. exact Hn.
  - intros i Hi. destruct (index_coordinates n i Hn Hi) as [Hq Hr].
    exists (i / n), (i mod n). auto.
  - intros a b Ha Hb.
    destruct (flatten_coordinates n a b Hn Ha Hb) as (Hrange & Hq & Hr).
    assert (Hpt : lattice_point (a * n + b) n
                  = [(IZR a / IZR n)%R; (IZR b / IZR n)%R]).
    { unfold lattice_point. rewrite Hq, Hr. reflexivity. }
    exists (a * n + b). split; [exact Hrange|]. split; [exact Hpt|].
    intros i' _ Hi'. apply (lattice_point_inj n); [exact Hn|]. congruence.
Qed.

Lemma lattice_point_bijective_witness :
  (forall i j, 0 <= i < 3 ^ 2 -> 0 <= j < 3 ^ 2 ->
     lattice_point i 3 = lattice_point j 3 -> i = j)
  /\ (forall i, 0 <= i < 3 ^ 2 ->
        exists a b, 0 <= a < 3 /\ 0 <= b < 3
          /\ lattice_point i 3 = [(IZR a / IZR 3)%R; (IZR b / IZR 3)%R])
  /\ (forall a b, 0 <= a < 3 -> 0 <= b < 3 ->
        exists i, 0 <= i < 3 ^ 2
          /\ lattice_point i 3 = [(IZR a / IZR 3)%R; (IZR b / IZR 3)%R]
          /\ forall i', 0 <= i' < 3 ^ 2 ->
               lattice_point i' 3 = [(IZR a / IZR 3)%R; (IZR b / IZR 3)%R] ->
               i' = i).
Proof. apply (lattice_point_bijective 3). lia. Defined.

(** ** Cyclic shifts of the lattice *)

(** Shifting both coordinates by [a] modulo [n] replaces the absolute
    difference [d] by [d] or by [n - d]. *)
Lemma shifted_difference (n u v a : Z) :
  1 <= n -> 0 <= u < n -> 0 <= v < n ->
  Z.abs ((u + a) mod n - (v + a) mod n) = Z.abs (u - v)
  \/ Z.abs ((u + a) mod n - (v + a) mod n) = n - Z.abs (u - v).
Proof.
  intros Hn Hu Hv.
  pose proof (Z.div_mod (u + a) n ltac:(lia)) as Eu.
  pose proof (Z.div_mod (v + a) n ltac:(lia)) as Ev.
  pose proof (Z.mod_pos_bound (u + a) n ltac:(lia)) as Bu.
  pose proof (Z.mod_pos_bound (v + a) n ltac:(lia)) as Bv.
  set (qu := (u + a) / n) in *. set (qv := (v + a) / n) in *.
  set (ru := (u + a) mod n) in *. set (rv := (v + a) mod n) in *.
  assert (Ht : -1 <= qv - qu <= 1) by nia.
  assert (Hcases : qv - qu = -1 \/ qv - qu = 0 \/ qv - qu = 1) by lia.
  destruct Hcases as [H|[H|H]]; nia.
Qed.

Lemma shift_coordinates (n a b k : Z) :
  1 <= n ->
  0 <= shift n a b k < n ^ 2
  /\ shift n a b k / n = (k / n + a) mod n
  /\ shift n a b k mod n = (k mod n + b) mod n.
Proof.
  intros Hn. unfold shift. apply flatten_coordinates; try lia.
  - apply Z.mod_pos_bound. lia.
  - apply Z.mod_pos_bound. lia.
Qed.

Lemma mod_shift_inj (n a u v : Z) :
  1 <= n -> 0 <= u < n -> 0 <= v < n ->
  (u + a) mod n = (v + a) mod n -> u = v.
Proof.
  intros Hn Hu Hv H.
  destruct (shifted_difference n u v a Hn Hu Hv) as [E|E];
    rewrite H, Z.sub_diag in E; simpl in E; lia.
Qed.

Lemma shift_inj (n a b i j : Z) :
  1 <= n -> 0 <= i < n ^ 2 -> 0 <= j < n ^ 2 ->
  shift n a b i = shift n a b j -> i = j.
Proof.
  intros Hn Hi Hj H.
  destruct (shift_coordinates n a b i Hn) as (_ & Hqi & Hri).
  destruct (shift_coordinates n a b j Hn) as (_ & Hqj & Hrj).
  destruct (index_coordinates n i Hn Hi) as [Bqi Bri].
  destruct (index_coordinates n j Hn Hj) as [Bqj Brj].
  rewrite H in Hqi, Hri. rewrite Hqj in Hqi. rewrite Hrj in Hri.
  apply mod_shift_inj in Hqi; try assumption.
  apply mod_shift_inj in Hri; try assumption.
  rewrite (Z.div_mod i n), (Z.div_mod j n) by lia. congruence.
Qed.

(** ** The forcing functions *)

Lemma func_low (x : R) : (0 <= x < 1 / 2)%R -> func x = Ok (h_low x).
Proof.
  intros Hx. unfold func, Rgeb, Rltb.
  destruct (Rge_dec x 0); [|lra]. destruct (Rlt_dec x 0.5); [|lra].
  reflexivity.
Qed.

Lemma func_high (x : R) : (1 / 2 <= x <= 1)%R -> func x = Ok (h_high x).
Proof.
  intros Hx. unfold func, Rgeb, Rltb, Rleb.
  destruct (Rge_dec x 0); [|lra]. destruct (Rlt_dec x 0.5); [lra|].
  destruct (Rge_dec x 0.5); [|lra]. destruct (Rle_dec x 1); [|lra].
  reflexivity.
Qed.

Lemma func_outside (x : R) :
  (x < 0 \/ 1 < x)%R -> func x = Raise (Exception "should not get here").
Proof.
  intros Hx. unfold func, Rgeb, Rltb, Rleb.
  destruct (Rge_dec x 0), (Rlt_dec x 0.5), (Rge_dec x 0.5), (Rle_dec x 1);
    simpl; try reflexivity; lra.
Qed.

Lemma func_h (x : R) : (0 <= x <= 1)%R -> func x = Ok (h x).
Proof.
  intros Hx. unfold h. destruct (Rlt_dec x (1 / 2)).
  - apply func_low. lra.
  - apply func_high. lra.
Qed.

Lemma g_h (x y lamb : R) :
  (0 <= x <= 1)%R -> (0 <= y <= 1)%R ->
  g x y lamb = Ok (f x y + lamb * h x * h y)%R.
Proof.
  intros Hx Hy. unfold g. rewrite (func_h x Hx), (func_h y Hy). reflexivity.
Qed.

(** C3: on a real x the piecewise function [func] of [g] returns its
    closed form when 0 <= x <= 1 (one branch on [0, 1/2), the other on
    [1/2, 1]) and raises exactly when x < 0 or x > 1. *)
Theorem func_domain (x : R) :
  ((0 <= x < 1 / 2)%R -> func x = Ok (h_low x))
  /\ ((1 / 2 <= x <= 1)%R -> func x = Ok (h_high x))
  /\ ((exists e, func x = Raise e) <-> (x < 0 \/ 1 < x)%R).
Proof.
  split; [apply func_low|]. split; [apply func_high|]. split.
  - intros [e He].
    destruct (Rlt_dec x 0) as [|H0]; [left; assumption|].
    destruct (Rlt_dec 1 x) as [|H1]; [right; assumption|].
    rewrite func_h in He by lra. discriminate.
  - intros Hx. eexists. apply func_outside. exact Hx.
Qed.

Lemma func_domain_witness :
  func (1 / 4) = Ok (h_low (1 / 4))
  /\ func (3 / 4) = Ok (h_high (3 / 4))
  /\ exists e, func 2 = Raise e.
Proof.
  split; [|split].
  - apply (proj1 (func_domain (1 / 4))). lra.
  - apply (proj1 (proj2 (func_domain (3 / 4)))). lra.
  - apply (proj2 (proj2 (func_domain 2))). right. lra.
Defined.

(** ** The discretized vectors *)

Lemma In_range (n k : Z) : In k (range n) <-> 0 <= k < n.
Proof.
  unfold range. rewrite in_map_iff. split.
  - intros (x & <- & Hx). apply in_seq in Hx. lia.
  - intros Hk. exists (Z.to_nat k). split; [lia|]. apply in_seq. lia.
Qed.

Lemma nth_range (n : Z) (k : nat) (d : Z) :
  (k < Z.to_nat n)%nat -> nth k (range n) d = Z.of_nat k.
Proof.
  intros Hk. unfold range.
  rewrite (nth_indep _ d (Z.of_nat 0)) by (rewrite length_map, length_seq; exact Hk).
  rewrite map_nth, seq_nth by exact Hk. reflexivity.
Qed.

Lemma grid_fraction (n i : Z) : 0 <= i < n -> (0 <= IZR i / IZR n < 1)%R.
Proof.
  intros Hi. assert (Hn : (0 < IZR n)%R) by (apply IZR_lt; lia).
  assert (H0 : (0 <= IZR i)%R) by (apply IZR_le; lia).
  assert (H1 : (IZR i < IZR n)%R) by (apply IZR_lt; lia).
  split.
  - apply Rmult_le_pos; [exact H0|]. apply Rlt_le, Rinv_0_lt_compat, Hn.
  - apply Rmult_lt_reg_r with (IZR n); [exact Hn|]. field_simplify; lra.
Qed.

(** The inner and outer loops append one row, respectively all rows. *)
Lemma append_loop_pure {A : Type} (G : A -> R) (xs : list A) (vec : Np.vector) :
  for_each_pure xs (fun vec j => vec ++ [G j]) vec = vec ++ map G xs.
Proof.
  unfold for_each_pure. revert vec; induction xs as [|x xs IH]; intros vec; simpl.
  - rewrite app_nil_r. reflexivity.
  - rewrite IH, <- app_assoc. reflexivity.
Qed.

Lemma append_rows_pure {A : Type} (body : Np.vector -> A -> Np.vector)
      (row : A -> Np.vector) (xs : list A) (vec : Np.vector) :
  (forall x v, body v x = v ++ row x) ->
  for_each_pure xs body vec = vec ++ flat_map row xs.
Proof.
  intros Hb. unfold for_each_pure.
  revert vec; induction xs as [|x xs IH]; intros vec; simpl.
  - rewrite app_nil_r. reflexivity.
  - rewrite Hb, IH, <- app_assoc. reflexivity.
Qed.

Lemma append_loop {A : Type} (G : A -> result R) (G' : A -> R) (xs : list A)
      (vec : Np.vector) :
  (forall x, In x xs -> G x = Ok (G' x)) ->
  for_each xs (fun vec j => v <- G j ;; Ok (vec ++ [v])) vec
  = Ok (vec ++ map G' xs).
Proof.
  revert vec; induction xs as [|x xs IH]; intros vec HG; simpl.
  - rewrite app_nil_r. reflexivity.
  - rewrite (HG x) by (left; reflexivity). simpl.
    rewrite IH by (intros y Hy; apply HG; right; exact Hy).
    rewrite <- app_assoc. reflexivity.
Qed.

Lemma append_rows {A : Type} (body : Np.vector -> A -> result Np.vector)
      (row : A -> Np.vector) (xs : list A) (vec : Np.vector) :
  (forall x v, In x xs -> body v x = Ok (v ++ row x)) ->
  for_each xs body vec = Ok (vec ++ flat_map row xs).
Proof.
  revert vec; induction xs as [|x xs IH]; intros vec Hb; simpl.
  - rewrite app_nil_r. reflexivity.
  - rewrite (Hb x) by (left; reflexivity). simpl.
    rewrite IH by (intros y v Hy; apply Hb; right; exact Hy).
    rewrite <- app_assoc. reflexivity.
Qed.

Lemma grid_rows (F : Z -> Z -> R) (n : Z) (r : nat) :
  length (flat_map (fun i => map (F i) (range n)) (range (Z.of_nat r)))
  = (r * Z.to_nat n)%nat
  /\ forall a b, (a < r)%nat -> (b < Z.to_nat n)%nat ->
       nth (a * Z.to_nat n + b)
           (flat_map (fun i => map (F i) (range n)) (range (Z.of_nat r))) 0%R
       = F (Z.of_nat a) (Z.of_nat b).
Proof.
  induction r as [|r [IHlen IHnth]].
  - split; [reflexivity | intros; lia].
  - rewrite range_succ, flat_map_app. cbn [flat_map]. rewrite app_nil_r. split.
    + rewrite length_app, IHlen, length_map, range_length. lia.
    + intros a b Ha Hb. destruct (Nat.eq_dec a r) as [->|Hne].
      * rewrite app_nth2 by (rewrite IHlen; lia).
        rewrite IHlen. replace (r * Z.to_nat n + b - r * Z.to_nat n)%nat with b by lia.
        rewrite (nth_indep _ 0%R (F (Z.of_nat r) 0))
          by (rewrite length_map, range_length; exact Hb).
        rewrite map_nth, nth_range by exact Hb. reflexivity.
      * rewrite app_nth1 by (rewrite IHlen; nia).
        apply IHnth; lia.
Qed.

Lemma grid_length (F : Z -> Z -> R) (n : Z) :
  0 <= n -> length (grid F n) = Z.to_nat (n ^ 2).
Proof.
  intros Hn. unfold grid.
  pose proof (grid_rows F n (Z.to_nat n)) as [Hlen _].
  rewrite Z2Nat.id in Hlen by exact Hn. rewrite Hlen. nia.
Qed.

Lemma grid_item (F : Z -> Z -> R) (n i j : Z) :
  0 <= i < n -> 0 <= j < n -> Np.item (grid F n) (i * n + j) = Ok (F i j).
Proof.
  intros Hi Hj. unfold Np.item.
  rewrite grid_length, norm_index_in_range by nia. simpl. f_equal.
  pose proof (grid_rows F n (Z.to_nat n)) as [_ Hnth].
  rewrite Z2Nat.id in Hnth by lia. unfold grid.
  replace (Z.to_nat (i * n + j)) with (Z.to_nat i * Z.to_nat n + Z.to_nat j)%nat by nia.
  rewrite Hnth by lia. rewrite !Z2Nat.id by lia. reflexivity.
Qed.

Lemma discretized_f_grid (N : Z) :
  discretized_f N = grid (fun i j => f (IZR i / IZR N) (IZR j / IZR N)) N.
Proof.
  unfold discretized_f, grid.
  rewrite (append_rows_pure _
             (fun i => map (fun j => f (IZR i / IZR N) (IZR j / IZR N)) (range N))).
  - reflexivity.
  - intros i vec.
    apply (append_loop_pure (fun j => f (IZR i / IZR N) (IZR j / IZR N))).
Qed.

Lemma discretized_g_grid (lamb : R) (N : Z) :
  discretized_g lamb N
  = Ok (grid (fun i j => (f (IZR i / IZR N) (IZR j / IZR N)
                          + lamb * h (IZR i / IZR N) * h (IZR j / IZR N))%R) N).
Proof.
  unfold discretized_g, grid.
  rewrite (append_rows _
             (fun i => map (fun j => (f (IZR i / IZR N) (IZR j / IZR N)
                        + lamb * h (IZR i / IZR N) * h (IZR j / IZR N))%R)
                        (range N))).
  - reflexivity.
  - intros i vec Hi. apply In_range in Hi.
    apply (append_loop (fun j => g (IZR i / IZR N) (IZR j / IZR N) lamb)).
    intros j Hj. apply In_range in Hj.
    pose proof (grid_fraction N i Hi). pose proof (grid_fraction N j Hj).
    apply g_h; lra.
Qed.

(** C9: for n >= 1 and any lamb, every argument [discretized_g] passes to
    [func] is i/n with i drawn from range(n), hence lies in [0, 1), where
    [func] and [g] return; so [discretized_g] returns and never raises. *)
Theorem discretized_g_total (lamb : R) (n : Z) :
  1 <= n ->
  (forall i, In i (range n) ->
     0 <= i < n /\ (0 <= IZR i / IZR n < 1)%R
     /\ exists v, func (IZR i / IZR n) = Ok v)
  /\ (forall i j, In i (range n) -> In j (range n) ->
        exists v, g (IZR i / IZR n) (IZR j / IZR n) lamb = Ok v)
  /\ exists vec, discretized_g lamb n = Ok vec.
Proof.
  intros Hn. split; [|split].
  - intros i Hi. apply In_range in Hi. pose proof (grid_fraction n i Hi) as Hf.
    split; [exact Hi|]. split; [exact Hf|].
    eexists. apply func_h. lra.
  - intros i j Hi Hj. apply In_range in Hi, Hj.
    pose proof (grid_fraction n i Hi). pose proof (grid_fraction n j Hj).
    eexists. apply g_h; lra.
  - eexists. apply discretized_g_grid.
Qed.

Lemma discretized_g_total_witness :
  (forall i, In i (range 4) ->
     0 <= i < 4 /\ (0 <= IZR i / IZR 4 < 1)%R
     /\ exists v, func (IZR i / IZR 4) = Ok v)
  /\ (forall i j, In i (range 4) -> In j (range 4) ->
        exists v, g (IZR i / IZR 4) (IZR j / IZR 4) 1 = Ok v)
  /\ exists vec, discretized_g 1 4 = Ok vec.
Proof. apply (discretized_g_total 1 4). lia. Defined.

(** C4: for n >= 1 and any lamb, [discretized_f(n)] and
    [discretized_g(lamb, n)] have length n^2, their component at
    i*n + j (i, j in [0, n)) is f(i/n, j/n), respectively
    g(i/n, j/n, lamb) = f(i/n, j/n) + lamb*h(i/n)*h(j/n), and the component
    at k in [0, n^2) is the function at point(k, n). *)
Theorem discretized_vectors (lamb : R) (n : Z) :
  1 <= n ->
  length (discretized_f n) = Z.to_nat (n ^ 2)
  /\ exists gvec, discretized_g lamb n = Ok gvec
     /\ length gvec = Z.to_nat (n ^ 2)
     /\ (forall i j, 0 <= i < n -> 0 <= j < n ->
          let x := (IZR i / IZR n)%R in
          let y := (IZR j / IZR n)%R in
          Np.item (discretized_f n) (i * n + j) = Ok (f x y)
          /\ Np.item gvec (i * n + j) = Ok (f x y + lamb * h x * h y)%R
          /\ g x y lamb = Ok (f x y + lamb * h x * h y)%R)
     /\ (forall k, 0 <= k < n ^ 2 ->
          Np.item (discretized_f n) k
          = Ok (f (fst (point k n)) (snd (point k n)))
          /\ Np.item gvec k = g (fst (point k n)) (snd (point k n)) lamb).
Proof.
  intros Hn. rewrite discretized_f_grid, discretized_g_grid.
  split; [apply grid_length; lia|].
  eexists. split; [reflexivity|]. split; [apply grid_length; lia|].
  assert (Hij : forall i j, 0 <= i < n -> 0 <= j < n ->
    let x := (IZR i / IZR n)%R in
    let y := (IZR j / IZR n)%R in
    Np.item (grid (fun i j => f (IZR i / IZR n) (IZR j / IZR n)) n) (i * n + j)
    = Ok (f x y)
    /\ Np.item (grid (fun i j => (f (IZR i / IZR n) (IZR j / IZR n)
                  + lamb * h (IZR i / IZR n) * h (IZR j / IZR n))%R) n) (i * n + j)
       = Ok (f x y + lamb * h x * h y)%R
    /\ g x y lamb = Ok (f x y + lamb * h x * h y)%R).
  { intros i j Hi Hj x y.
    rewrite !grid_item by assumption. split; [reflexivity|]. split; [reflexivity|].
    pose proof (grid_fraction n i Hi). pose proof (grid_fraction n j Hj).
    apply g_h; unfold x, y; lra. }
  split; [exact Hij|].
  intros k Hk. destruct (index_coordinates n k Hn Hk) as [Hq Hr].
  destruct (Hij (k / n) (k mod n) Hq Hr) as (Hf & Hg & Hgv).
  replace (k / n * n + k mod n) with k in Hf, Hg
    by (rewrite (Z.div_mod k n) at 1 by lia; ring).
  unfold point. cbn [fst snd]. split; [exact Hf|].
  rewrite Hg. symmetry. exact Hgv.
Qed.

Lemma discretized_vectors_witness :
  length (discretized_f 4) = Z.to_nat (4 ^ 2)
  /\ exists gvec, discretized_g 1 4 = Ok gvec
     /\ length gvec = Z.to_nat (4 ^ 2)
     /\ (forall i j, 0 <= i < 4 -> 0 <= j < 4 ->
          let x := (IZR i / IZR 4)%R in
          let y := (IZR j / IZR 4)%R in
          Np.item (discretized_f 4) (i * 4 + j) = Ok (f x y)
          /\ Np.item gvec (i * 4 + j) = Ok (f x y + 1 * h x * h y)%R
          /\ g x y 1 = Ok (f x y + 1 * h x * h y)%R)
     /\ (forall k, 0 <= k < 4 ^ 2 ->
          Np.item (discretized_f 4) k
          = Ok (f (fst (point k 4)) (snd (point k 4)))
          /\ Np.item gvec k = g (fst (point k 4)) (snd (point k 4)) 1).
Proof. apply (discretized_vectors 1 4). lia. Defined.

(** ** Two concrete operators *)




(** ** Loading the file *)

Lemma print_min_rejected (fuel : nat) :
  Syntax.parse fuel Syntax.Expr Syntax.print_min = None.
Proof.
  do 7 (destruct fuel as [|fuel]; [reflexivity|]). reflexivity.
Qed.

(** C2 (the code departs from it): the file is not a valid program.  The
    [print] call of line 138 puts a name directly after a string literal,
    which no amount of parsing accepts, while the sibling calls of lines
    136, 137, 214 and 215 are statements; compiling the file therefore
    raises [SyntaxError] at line 138 and the study never starts. *)
Theorem program_fails_to_load :
  (forall fuel, Syntax.parse fuel Syntax.Expr Syntax.print_min = None)
  /\ Syntax.is_statement Syntax.print_min = false
  /\ Syntax.is_statement Syntax.print_n = true
  /\ Syntax.is_statement Syntax.print_kappa = true
  /\ Syntax.compile Syntax.print_lines = Raise (SyntaxError 138).
Proof.
  split; [exact print_min_rejected|].
  split; [unfold Syntax.is_statement; rewrite print_min_rejected; reflexivity|].
  split; [reflexivity|]. split; reflexivity.
Qed.

(* ===================================================================== *)
(** * Further properties of the source functions *)
(* ===================================================================== *)

(** ** The lattice distance is a metric on the torus *)

Ltac split_axis :=
  unfold wrap, Rabs;
  repeat match goal with
         | |- context [Rcase_abs ?x] => destruct (Rcase_abs x)
         | |- context [Rlt_dec ?x ?y] => destruct (Rlt_dec x y)
         end.

Lemma wrap_zero (a b : R) :
  (0 <= a < 1)%R -> (0 <= b < 1)%R -> wrap (Rabs (a - b)) = 0%R -> a = b.
Proof. intros Ha Hb. split_axis; lra. Qed.

Lemma wrap_nonneg (a b : R) :
  (0 <= a < 1)%R -> (0 <= b < 1)%R -> (0 <= wrap (Rabs (a - b)))%R.
Proof. intros Ha Hb. split_axis; lra. Qed.

(** X2: Two points of the unit square are at distance 0 only when they are
    the same point. *)
Theorem lattice_distance_zero (x1 y1 x2 y2 : R) :
  (0 <= x1 < 1)%R -> (0 <= y1 < 1)%R -> (0 <= x2 < 1)%R -> (0 <= y2 < 1)%R ->
  (lattice_distance [x1; y1] [x2; y2] = 0%R <-> x1 = x2 /\ y1 = y2).
Proof.
  intros Hx1 Hy1 Hx2 Hy2. rewrite lattice_distance_toroidal. split.
  - unfold toroidal_distance. cbn [fst snd]. intros H.
    pose proof (wrap_nonneg x1 x2 Hx1 Hx2). pose proof (wrap_nonneg y1 y2 Hy1 Hy2).
    split; apply wrap_zero; try assumption; lra.
  - intros [-> ->]. apply toroidal_distance_self.
Qed.

Lemma lattice_distance_zero_witness :
  lattice_distance [0; 1 / 4]%R [0; 1 / 4]%R = 0%R
  <-> (0 = 0 /\ 1 / 4 = 1 / 4)%R.
Proof. apply (lattice_distance_zero 0 (1 / 4) 0 (1 / 4)); lra. Defined.

(** ** The operator for every resolution *)

(** X4: [cross_correlation] never raises.  For n = 0 the loops do not run and
    the empty matrix comes back, although [matrix_entry] itself raises
    [ZeroDivisionError] there; for every other n, negative ones included,
    the result is an n^2 x n^2 matrix whose entry (i, j) is lamb times
    what [matrix_entry] returns, plus 1 on the diagonal. *)
Theorem cross_correlation_total (n : Z) (kernel_func : R -> R) (lamb : R) :
  (forall i j, matrix_entry i j 0 kernel_func = Raise ZeroDivisionError)
  /\ cross_correlation 0 kernel_func lamb = Ok []
  /\ exists A, cross_correlation n kernel_func lamb = Ok A
       /\ Np.has_shape A (Z.to_nat (n ^ 2)) (Z.to_nat (n ^ 2))
       /\ forall i j, 0 <= i < n ^ 2 -> 0 <= j < n ^ 2 ->
            exists e, matrix_entry i j n kernel_func = Ok e
              /\ Np.getitem A i j = Ok (lamb * e + (if i =? j then 1 else 0))%R.
Proof.
  split; [reflexivity|]. split; [reflexivity|].
  destruct (Z.eq_dec n 0) as [->|Hn].
  - exists []. split; [reflexivity|]. split.
    + split; [reflexivity | intros row []].
    + intros i j Hi. change (0 ^ 2) with 0 in Hi. lia.
  - destruct (cross_correlation_entries_nonzero n kernel_func lamb Hn)
      as (A & HA & Hs & Hg).
    exists A. split; [exact HA|]. split; [exact Hs|].
    intros i j Hi Hj. eexists. split; [apply matrix_entry_spec; exact Hn|].
    rewrite Hg by assumption. reflexivity.
Qed.

(** X5: Every diagonal entry of the operator is 1 + lamb * kernel(0) / n^2. *)
Theorem cross_correlation_diagonal (n : Z) (kernel_func : R -> R) (lamb : R) :
  n <> 0 ->
  exists A, cross_correlation n kernel_func lamb = Ok A
    /\ forall i, 0 <= i < n ^ 2 ->
         Np.getitem A i i = Ok (1 + lamb * kernel_func 0 / IZR (n ^ 2))%R.
Proof.
  intros Hn.
  destruct (cross_correlation_entries_nonzero n kernel_func lamb Hn)
    as (A & HA & _ & Hg).
  exists A. split; [exact HA|].
  intros i Hi. rewrite Hg by assumption. f_equal.
  rewrite toroidal_distance_self. unfold delta. rewrite Z.eqb_refl.
  assert (IZR (n ^ 2) <> 0)%R by (apply not_0_IZR; nia).
  field. assumption.
Qed.

Lemma cross_correlation_diagonal_witness :
  exists A, cross_correlation (-3) exp_kernel 2 = Ok A
    /\ forall i, 0 <= i < (-3) ^ 2 ->
         Np.getitem A i i = Ok (1 + 2 * exp_kernel 0 / IZR ((-3) ^ 2))%R.
Proof. apply (cross_correlation_diagonal (-3) exp_kernel 2). lia. Defined.

(** ** The filter *)

Lemma nth_range2 (start stop : Z) (k : nat) (d : Z) :
  (k < Z.to_nat (stop - start))%nat ->
  nth k (range2 start stop) d = start + Z.of_nat k.
Proof.
  intros Hk. unfold range2.
  rewrite (nth_indep _ d (start + Z.of_nat 0))
    by (rewrite length_map, length_seq; exact Hk).
  rewrite (map_nth (fun k => start + Z.of_nat k)), seq_nth by exact Hk.
  reflexivity.
Qed.

Lemma In_range2 (start stop k : Z) : In k (range2 start stop) -> start <= k < stop.
Proof.
  unfold range2. rewrite in_map_iff. intros (x & <- & Hx).
  apply in_seq in Hx. lia.
Qed.

Lemma flat_map_single {A B : Type} (fn : A -> B) (xs : list A) :
  flat_map (fun x => [fn x]) xs = map fn xs.
Proof. induction xs as [|x xs IH]; simpl; [|rewrite IH]; reflexivity. Qed.

Lemma get_filter_value (n : Z) (kernel_func : R -> R) (lamb : R) :
  n <> 0 ->
  let e := fun j => (1 / IZR (n ^ 2)
                     * kernel_func (toroidal_distance (point 0 n) (point j n)))%R in
  get_filter n kernel_func lamb
  = Ok ((lamb * e 0%Z + 1)%R :: map (fun j => (lamb * e j)%R) (range2 1 (n ^ 2))).
Proof.
  intros Hn e. unfold get_filter.
  rewrite matrix_entry_spec by exact Hn. cbn [Py.bind].
  rewrite (append_rows _ (fun j => [(lamb * e j)%R])).
  - rewrite flat_map_single. reflexivity.
  - intros j v _. rewrite matrix_entry_spec by exact Hn. reflexivity.
Qed.

Lemma get_filter_item (n : Z) (kernel_func : R -> R) (lamb : R) :
  n <> 0 ->
  exists m, get_filter n kernel_func lamb = Ok m
    /\ length m = Z.to_nat (n ^ 2)
    /\ forall j, 0 <= j < n ^ 2 ->
         Np.item m j =
         Ok (lamb * (1 / IZR (n ^ 2)
                     * kernel_func (toroidal_distance (point 0 n) (point j n)))
             + delta 0 j)%R.
Proof.
  intros Hn. rewrite get_filter_value by exact Hn. cbv zeta.
  eexists. split; [reflexivity|].
  assert (Hlen : forall (c : R) (F : Z -> R),
            length (c :: map F (range2 1 (n ^ 2))) = Z.to_nat (n ^ 2)).
  { intros c F. cbn [length]. unfold range2. rewrite !length_map, length_seq. nia. }
  split; [apply Hlen|].
  intros j Hj. unfold Np.item. rewrite Hlen, norm_index_in_range by lia.
  cbn [Py.bind]. f_equal. unfold delta.
  destruct (Z.eq_dec j 0) as [->|Hj0].
  - reflexivity.
  - destruct (Z.eqb_spec 0 j) as [|_]; [lia|].
    replace (Z.to_nat j) with (S (Z.to_nat (j - 1))) by lia. cbn [nth].
    set (F := fun j0 : Z =>
      (lamb * (1 / IZR (n ^ 2)
               * kernel_func (toroidal_distance (point 0 n) (point j0 n))))%R).
    rewrite (nth_indep _ 0%R (F 0))
      by (unfold range2; rewrite !length_map, length_seq; lia).
    rewrite (map_nth F), nth_range2 by lia.
    replace (1 + Z.of_nat (Z.to_nat (j - 1))) with j by lia.
    unfold F. ring.
Qed.

(** X6: [get_filter] raises [ZeroDivisionError] for N = 0 (where
    [cross_correlation] returns the empty matrix); for every other N it
    returns a vector of length N^2 that is both the first row and the
    first column of the operator built by [cross_correlation]. *)
Theorem get_filter_first_row (n : Z) (kernel_func : R -> R) (lamb : R) :
  get_filter 0 kernel_func lamb = Raise ZeroDivisionError
  /\ (n <> 0 ->
      exists m A, get_filter n kernel_func lamb = Ok m
        /\ cross_correlation n kernel_func lamb = Ok A
        /\ length m = Z.to_nat (n ^ 2)
        /\ forall j, 0 <= j < n ^ 2 ->
             exists v, Np.item m j = Ok v
               /\ Np.getitem A 0 j = Ok v
               /\ Np.getitem A j 0 = Ok v).
Proof.
  split; [reflexivity|]. intros Hn.
  destruct (get_filter_item n kernel_func lamb Hn) as (m & Hm & Hlen & Hitem).
  destruct (cross_correlation_entries_nonzero n kernel_func lamb Hn)
    as (A & HA & _ & Hg).
  exists m, A. split; [exact Hm|]. split; [exact HA|]. split; [exact Hlen|].
  intros j Hj. assert (H0 : 0 <= 0 < n ^ 2) by nia.
  eexists. split; [apply Hitem; exact Hj|].
  split; [apply Hg; assumption|].
  rewrite Hg by assumption.
  rewrite (toroidal_distance_sym (point j n)). unfold delta.
  rewrite (Z.eqb_sym j 0). reflexivity.
Qed.

Lemma get_filter_first_row_witness :
  exists m A, get_filter 3 exp_kernel 2 = Ok m
    /\ cross_correlation 3 exp_kernel 2 = Ok A
    /\ length m = Z.to_nat (3 ^ 2)
    /\ forall j, 0 <= j < 3 ^ 2 ->
         exists v, Np.item m j = Ok v
           /\ Np.getitem A 0 j = Ok v
           /\ Np.getitem A j 0 = Ok v.
Proof. apply (proj2 (get_filter_first_row 3 exp_kernel 2)). lia. Defined.

(** ** The forcing functions on and off their domain *)

Lemma func_raises (x : R) (e : exn) :
  func x = Raise e -> e = Exception "should not get here" /\ (x < 0 \/ 1 < x)%R.
Proof.
  intros He.
  destruct (Rlt_dec x 0) as [Hlt|H0].
  - rewrite func_outside in He by (left; exact Hlt). injection He as <-. auto.
  - destruct (Rlt_dec 1 x) as [Hgt|H1].
    + rewrite func_outside in He by (right; exact Hgt). injection He as <-. auto.
    + rewrite func_h in He by lra. discriminate.
Qed.

Lemma f_sym (x y : R) : f x y = f y x.
Proof. unfold f. ring. Qed.

(** X8: [g] raises exactly when one of its two coordinates lies outside
    [0, 1], whatever lamb is (also for lamb = 0, where the factor it
    guards does not contribute), and otherwise returns
    f(x, y) + lamb * h(x) * h(y). *)
Theorem g_domain (x y lamb : R) :
  ((exists e, g x y lamb = Raise e) <-> (x < 0 \/ 1 < x \/ y < 0 \/ 1 < y)%R)
  /\ ((0 <= x <= 1)%R -> (0 <= y <= 1)%R ->
      g x y lamb = Ok (f x y + lamb * h x * h y)%R
      /\ g x y 0 = Ok (f x y)).
Proof.
  split.
  - split.
    + intros [e He]. unfold g in He.
      destruct (func x) as [hx|ex] eqn:Ex.
      * destruct (func y) as [hy|ey] eqn:Ey; [discriminate|].
        apply func_raises in Ey. tauto.
      * apply func_raises in Ex. tauto.
    + intros Hout. unfold g.
      destruct (func x) as [hx|ex] eqn:Ex; [|eexists; reflexivity].
      destruct (func y) as [hy|ey] eqn:Ey; [|eexists; reflexivity].
      exfalso.
      assert (Hx : (0 <= x <= 1)%R).
      { destruct (Rlt_dec x 0); [rewrite func_outside in Ex by tauto; discriminate|].
        destruct (Rlt_dec 1 x); [rewrite func_outside in Ex by tauto; discriminate|].
        lra. }
      assert (Hy : (0 <= y <= 1)%R).
      { destruct (Rlt_dec y 0); [rewrite func_outside in Ey by tauto; discriminate|].
        destruct (Rlt_dec 1 y); [rewrite func_outside in Ey by tauto; discriminate|].
        lra. }
      lra.
  - intros Hx Hy. split; [apply g_h; assumption|].
    rewrite g_h by assumption. f_equal. ring.
Qed.

Lemma g_domain_witness :
  g (1 / 4) (3 / 4) 2
  = Ok (f (1 / 4) (3 / 4) + 2 * h (1 / 4) * h (3 / 4))%R
  /\ g (1 / 4) (3 / 4) 0 = Ok (f (1 / 4) (3 / 4)).
Proof. apply (proj2 (g_domain (1 / 4) (3 / 4) 2)); lra. Defined.

(** X10: The two closed forms of [func] are glued consistently: they agree at
    the branch point 1/2, and [func] takes the same value at the two ends
    0 and 1 of its domain, as a function on the torus must. *)
Theorem func_glued :
  h_low (1 / 2) = h_high (1 / 2) /\ func 0 = func 1.
Proof.
  assert (HE : (exp (1 / 2) <> 0)%R).
  { pose proof (exp_pos (1 / 2)). lra. }
  split.
  - unfold h_low, h_high.
    replace (-1 + 1 / 2)%R with (- (1 / 2))%R by lra.
    rewrite exp_Ropp. field. exact HE.
  - rewrite (func_low 0), (func_high 1) by lra. f_equal.
    unfold h_low, h_high.
    replace (-1 + 1)%R with 0%R by lra. rewrite Ropp_0, exp_0. field. exact HE.
Qed.

(** ** The forcing vectors *)

Lemma grid_ext (F G : Z -> Z -> R) (n : Z) :
  (forall i j, 0 <= i < n -> 0 <= j < n -> F i j = G i j) ->
  grid F n = grid G n.
Proof.
  intros H. unfold grid.
  assert (Hgen : forall xs, (forall i, In i xs -> 0 <= i < n) ->
            flat_map (fun i => map (F i) (range n)) xs
            = flat_map (fun i => map (G i) (range n)) xs).
  { induction xs as [|x xs IH]; intros Hxs; simpl; [reflexivity|].
    rewrite IH by (intros i Hi; apply Hxs; right; exact Hi). f_equal.
    apply map_ext_in. intros j Hj. apply In_range in Hj.
    apply H; [apply Hxs; left; reflexivity | exact Hj]. }
  apply Hgen. intros i Hi. apply In_range. exact Hi.
Qed.

(** X11: For every N, non-positive ones included, [discretized_g] returns;
    with lamb = 0 it returns the very vector [discretized_f] builds, and
    for N <= 0 both are empty. *)
Theorem discretized_g_zero (lamb : R) (N : Z) :
  (exists gvec, discretized_g lamb N = Ok gvec)
  /\ discretized_g 0 N = Ok (discretized_f N)
  /\ (N <= 0 -> discretized_f N = [] /\ discretized_g lamb N = Ok []).
Proof.
  split; [eexists; apply discretized_g_grid|]. split.
  - rewrite discretized_g_grid, discretized_f_grid. f_equal.
    apply grid_ext. intros i j _ _. ring.
  - intros HN. unfold discretized_f, discretized_g.
    rewrite range_nonpos by exact HN. split; reflexivity.
Qed.

Lemma discretized_g_zero_witness :
  discretized_f (-2) = [] /\ discretized_g 3 (-2) = Ok [].
Proof. apply (proj2 (proj2 (discretized_g_zero 3 (-2)))). lia. Defined.

(** ** Diagonal dominance of the exponential operator *)

Lemma getitem_nth (a : Np.matrix) (rows cols : nat) (i j : Z) :
  Np.has_shape a rows cols ->
  0 <= i < Z.of_nat rows -> 0 <= j < Z.of_nat cols ->
  Np.getitem a i j = Ok (nth (Z.to_nat j) (nth (Z.to_nat i) a []) 0%R).
Proof.
  intros Hs Hi Hj. pose proof (shape_row a rows cols Hs i Hi) as Hrow.
  destruct Hs as [Hr _]. unfold Np.getitem.
  rewrite Hr, norm_index_in_range by lia. cbn [Py.bind].
  rewrite Hrow, norm_index_in_range by lia. reflexivity.
Qed.

Lemma list_getitem_nth {A : Type} (l : list A) (k : Z) (d : A) :
  0 <= k < Z.of_nat (length l) -> list_getitem l k = Ok (nth (Z.to_nat k) l d).
Proof.
  intros Hk. unfold list_getitem. rewrite norm_index_in_range by exact Hk.
  cbn [Py.bind]. rewrite (nth_error_nth' l d) by lia. reflexivity.
Qed.

Lemma sum_le_bound (l : list R) (b : R) :
  (forall x, In x l -> (x <= b)%R) -> (Np.sum l <= INR (length l) * b)%R.
Proof.
  induction l as [|x l IH]; intros Hb.
  - simpl. lra.
  - change (Np.sum (x :: l)) with (x + Np.sum l)%R.
    change (length (x :: l)) with (S (length l)). rewrite S_INR.
    pose proof (Hb x (or_introl eq_refl)).
    pose proof (IH (fun y Hy => Hb y (or_intror Hy))). lra.
Qed.

Lemma In_without (row : list R) (i : nat) (x : R) :
  In x (firstn i row ++ skipn (S i) row) ->
  exists j, j <> i /\ (j < length row)%nat /\ nth j row 0%R = x.
Proof.
  intros Hin. apply in_app_or in Hin. destruct Hin as [Hin|Hin].
  - apply (In_nth _ _ 0%R) in Hin. destruct Hin as (k & Hk & Hx).
    rewrite length_firstn in Hk. rewrite nth_firstn in Hx.
    destruct (Nat.ltb_spec k i); [|lia].
    exists k. repeat split; [lia | lia | exact Hx].
  - apply (In_nth _ _ 0%R) in Hin. destruct Hin as (k & Hk & Hx).
    rewrite length_skipn in Hk. rewrite nth_skipn in Hx.
    exists (S i + k)%nat. repeat split; [lia | lia | exact Hx].
Qed.

Lemma exp_kernel_range (d : R) : (0 <= d)%R -> (0 < exp_kernel d <= 1)%R.
Proof.
  intros Hd. unfold exp_kernel. split; [apply exp_pos|].
  rewrite <- exp_0. destruct (Req_dec d 0) as [->|Hne].
  - rewrite Ropp_0. lra.
  - apply Rlt_le, exp_increasing. lra.
Qed.

Lemma point_unit_square (n i : Z) :
  1 <= n -> 0 <= i < n ^ 2 ->
  (0 <= fst (point i n) < 1)%R /\ (0 <= snd (point i n) < 1)%R.
Proof.
  intros Hn Hi. destruct (index_coordinates n i Hn Hi) as [Hq Hr].
  unfold point. cbn [fst snd]. split; apply grid_fraction; assumption.
Qed.

(** X13: With the exponential kernel and 0 <= lamb <= 1 (the study uses
    lamb = 1) the operator is strictly diagonally dominant: in every row
    the absolute values of the off-diagonal entries sum to less than the
    absolute value of the diagonal entry. *)
Theorem exp_operator_diagonally_dominant (n : Z) (lamb : R) :
  1 <= n -> (0 <= lamb <= 1)%R ->
  exists A, cross_correlation n exp_kernel lamb = Ok A
    /\ forall i, 0 <= i < n ^ 2 ->
         exists row d, list_getitem A i = Ok row
           /\ Np.getitem A i i = Ok d
           /\ (off_diagonal row (Z.to_nat i) < Rabs d)%R.
Proof.
  intros Hn Hlamb.
  destruct (cross_correlation_entries n exp_kernel lamb Hn) as (A & HA & Hs & Hg).
  exists A. split; [exact HA|]. intros i Hi.
  assert (Hm : Z.of_nat (Z.to_nat (n ^ 2)) = n ^ 2) by nia.
  assert (HlenA : length A = Z.to_nat (n ^ 2)) by (destruct Hs; assumption).
  assert (Hrow : length (nth (Z.to_nat i) A []) = Z.to_nat (n ^ 2)).
  { apply (shape_row A _ _ Hs). lia. }
  set (row := nth (Z.to_nat i) A []) in *.
  set (M := IZR (n ^ 2)).
  assert (HM : (1 <= M)%R) by (apply IZR_le; nia).
  set (q := (lamb * (1 / M))%R).
  assert (Hq : (0 <= q)%R).
  { unfold q. apply Rmult_le_pos; [lra|]. apply Rlt_le.
    unfold Rdiv. rewrite Rmult_1_l. apply Rinv_0_lt_compat. lra. }
  assert (HMq : (M * q = lamb)%R) by (unfold q; field; lra).
  exists row, (1 + q)%R. split; [|split].
  - apply list_getitem_nth. lia.
  - rewrite Hg by assumption. f_equal.
    rewrite toroidal_distance_self. unfold exp_kernel, delta.
    rewrite Z.eqb_refl, Ropp_0, exp_0. unfold q. fold M. ring.
  - rewrite (Rabs_right (1 + q)) by lra.
    assert (Hbound : forall x,
              In x (map Rabs (firstn (Z.to_nat i) row ++ skipn (S (Z.to_nat i)) row)) ->
              (x <= q)%R).
    { intros x Hx. apply in_map_iff in Hx. destruct Hx as (y & <- & Hy).
      apply In_without in Hy. destruct Hy as (j & Hji & Hj & <-).
      rewrite Hrow in Hj.
      assert (Hjr : 0 <= Z.of_nat j < n ^ 2) by lia.
      pose proof (Hg i (Z.of_nat j) Hi Hjr) as Hentry.
      rewrite (getitem_nth A _ _ _ _ Hs) in Hentry by lia.
      injection Hentry as Hentry. change (Z.pow_pos n 2) with (n ^ 2) in Hentry.
      rewrite Nat2Z.id in Hentry. fold row in Hentry.
      rewrite Hentry. unfold delta.
      destruct (Z.eqb_spec i (Z.of_nat j)) as [E|_]; [lia|].
      destruct (point_unit_square n i Hn Hi) as [Hi1 Hi2].
      destruct (point_unit_square n (Z.of_nat j) Hn Hjr) as [Hj1 Hj2].
      pose proof (toroidal_distance_bounds _ _ Hi1 Hi2 Hj1 Hj2) as [Hd _].
      pose proof (exp_kernel_range _ Hd) as [Hk0 Hk1].
      fold M.
      set (k := exp_kernel (toroidal_distance (point i n) (point (Z.of_nat j) n)))
        in *.
      assert (HinvM : (0 < 1 / M)%R).
      { unfold Rdiv. rewrite Rmult_1_l. apply Rinv_0_lt_compat. lra. }
      set (c := (1 / M)%R) in *.
      assert (Hck : (0 <= c * k <= c)%R) by nra.
      assert (Hlck : (0 <= lamb * (c * k) <= lamb * c)%R) by nra.
      rewrite Rabs_right by lra. unfold q. lra. }
    pose proof (sum_le_bound _ q Hbound) as Hsum.
    rewrite length_map, length_app, length_firstn, length_skipn, Hrow in Hsum.
    replace (Nat.min (Z.to_nat i) (Z.to_nat (n ^ 2))
             + (Z.to_nat (n ^ 2) - S (Z.to_nat i)))%nat
      with (Z.to_nat (n ^ 2 - 1)) in Hsum by lia.
    rewrite INR_IZR_INZ, Z2Nat.id, minus_IZR in Hsum by lia. fold M in Hsum.
    unfold off_diagonal.
    destruct (Rle_lt_or_eq_dec 0 q Hq) as [Hpos|Hzero]; nra.
Qed.

Lemma exp_operator_diagonally_dominant_witness :
  exists A, cross_correlation 4 exp_kernel 1 = Ok A
    /\ forall i, 0 <= i < 4 ^ 2 ->
         exists row d, list_getitem A i = Ok row
           /\ Np.getitem A i i = Ok d
           /\ (off_diagonal row (Z.to_nat i) < Rabs d)%R.
Proof. apply (exp_operator_diagonally_dominant 4 1); [lia | lra]. Defined.

(** ** The regular representations of the cyclic group *)

Lemma snoc_loop_pure {A B : Type} (G : A -> B) (xs : list A) (acc : list B) :
  for_each_pure xs (fun acc x => acc ++ [G x]) acc = acc ++ map G xs.
Proof.
  unfold for_each_pure. revert acc; induction xs as [|x xs IH]; intros acc; simpl.
  - rewrite app_nil_r. reflexivity.
  - rewrite IH, <- app_assoc. reflexivity.
Qed.

Lemma snoc_loop {A B : Type} (body : list B -> A -> result (list B))
      (G : A -> B) (xs : list A) (acc : list B) :
  (forall x v, In x xs -> body v x = Ok (v ++ [G x])) ->
  for_each xs body acc = Ok (acc ++ map G xs).
Proof.
  revert acc; induction xs as [|x xs IH]; intros acc Hb; simpl.
  - rewrite app_nil_r. reflexivity.
  - rewrite (Hb x) by (left; reflexivity). simpl.
    rewrite IH by (intros y v Hy; apply Hb; right; exact Hy).
    rewrite <- app_assoc. reflexivity.
Qed.

Lemma comprehension_ok {A B : Type} (fn : A -> result B) (fn' : A -> B)
      (xs : list A) :
  (forall x, In x xs -> fn x = Ok (fn' x)) ->
  comprehension fn xs = Ok (map fn' xs).
Proof.
  induction xs as [|x xs IH]; intros H; simpl; [reflexivity|].
  rewrite (H x) by (left; reflexivity). simpl.
  rewrite IH by (intros y Hy; apply H; right; exact Hy). reflexivity.
Qed.

(** Indexing a Python list with any index in [-len, len) reads the
    element at the index modulo len. *)
Lemma list_getitem_wrap {A : Type} (l : list A) (k : Z) (d : A) :
  - Z.of_nat (length l) <= k < Z.of_nat (length l) ->
  list_getitem l k = Ok (nth (Z.to_nat (k mod Z.of_nat (length l))) l d).
Proof.
  intros Hk. unfold list_getitem, Np.norm_index.
  destruct (Z.leb_spec 0 k) as [Hpos|Hneg]; cbn [andb].
  - destruct (Z.ltb_spec k (Z.of_nat (length l))); [|lia]. cbn [Py.bind].
    rewrite Z.mod_small by lia.
    rewrite (nth_error_nth' l d) by lia. reflexivity.
  - destruct (Z.leb_spec (- Z.of_nat (length l)) k); [|lia].
    destruct (Z.ltb_spec k 0); [|lia]. cbn [andb Py.bind].
    replace (k mod Z.of_nat (length l)) with (k + Z.of_nat (length l)).
    + rewrite (nth_error_nth' l d) by lia. reflexivity.
    + apply (Z.mod_unique_pos _ _ (-1)); lia.
Qed.

(** [l.pop(-1)] takes the last element off. *)
Lemma list_pop_last {A : Type} (l : list A) (x : A) :
  list_pop (l ++ [x]) (-1) = Ok (x, l).
Proof.
  unfold list_pop, Np.norm_index. rewrite length_app. cbn [length].
  change (0 <=? -1) with false. change (-1 <? 0) with true. cbn [andb].
  destruct (Z.leb_spec (- Z.of_nat (length l + 1)) (-1)); [|lia].
  cbn [andb Py.bind].
  replace (Z.to_nat (-1 + Z.of_nat (length l + 1))) with (length l) by lia.
  rewrite nth_error_app2 by lia. rewrite Nat.sub_diag. cbn [nth_error].
  rewrite firstn_app, Nat.sub_diag, firstn_all. cbn [firstn].
  rewrite skipn_all2 by (rewrite length_app; cbn [length]; lia).
  rewrite !app_nil_r. reflexivity.
Qed.

Lemma complement_mod (N a b q : Z) :
  1 <= N -> a + b + 1 = N * q -> N - 1 - a mod N = b mod N.
Proof.
  intros HN H.
  pose proof (Z.div_mod a N ltac:(lia)) as Ea.
  pose proof (Z.mod_pos_bound a N ltac:(lia)) as Ba.
  apply (Z.mod_unique_pos _ _ (q - a / N - 1)); [lia|]. nia.
Qed.

Lemma range_cons (k : nat) :
  range (Z.of_nat (S k)) = 0 :: map (fun g => g + 1) (range (Z.of_nat k)).
Proof.
  unfold range. rewrite !Nat2Z.id. cbn [seq map]. f_equal.
  rewrite <- seq_shift, !map_map. apply map_ext. intros a. lia.
Qed.

(** The row of [get_cyclic_reps] with its 1 in column [i]. *)
Lemma unit_row_ext (N i i' : Z) :
  i = i' ->
  map (fun j => if j =? i then 1 else 0) (range N)
  = map (fun c => if c =? i' then 1 else 0) (range N).
Proof. intros ->. reflexivity. Qed.

Lemma get_cyclic_reps_value (N : Z) :
  1 <= N ->
  get_cyclic_reps N =
  Ok (map (fun g =>
        table N N (fun j c => if c =? (j - g) mod N then 1 else 0))
        (range N)).
Proof.
  unfold table.
  intros HN. unfold get_cyclic_reps.
  rewrite (snoc_loop_pure (fun i => map (fun j => if j =? i then 1 else 0) (range N))).
  cbn [app].
  set (A := map _ (range_down (N - 1) (-1))).
  assert (HlenA : length A = Z.to_nat N).
  { unfold A, range_down. rewrite !length_map, length_seq. f_equal. lia. }
  assert (HnthA : forall k, 0 <= k < N ->
            nth (Z.to_nat k) A []
            = map (fun j => if j =? N - 1 - k then 1 else 0) (range N)).
  { intros k Hk. unfold A, range_down. rewrite map_map.
    rewrite (nth_indep _ []
               ((fun x => map (fun j => if j =? N - 1 - Z.of_nat x then 1 else 0)
                              (range N)) 0%nat))
      by (rewrite length_map, length_seq; lia).
    rewrite (map_nth (fun x => map (fun j => if j =? N - 1 - Z.of_nat x then 1 else 0)
                                   (range N))).
    rewrite seq_nth by lia. rewrite Nat.add_0_l, Z2Nat.id by lia. reflexivity. }
  set (P := fun i => map (fun j => map (fun c => if c =? N - 1 - (i - j) mod N
                                                 then 1 else 0) (range N))
                         (range N)).
  rewrite (snoc_loop _ P).
  2:{ intros i v Hi. apply In_range in Hi.
      rewrite (comprehension_ok _
                 (fun j => map (fun c => if c =? N - 1 - (i - j) mod N then 1 else 0)
                               (range N))).
      - reflexivity.
      - intros j Hj. apply In_range in Hj.
        rewrite (list_getitem_wrap A (i - j) []) by (rewrite HlenA; lia).
        rewrite HlenA, Z2Nat.id by lia. f_equal. apply HnthA.
        apply Z.mod_pos_bound. lia. }
  cbn [app Py.bind].
  replace N with (Z.of_nat (S (Z.to_nat (N - 1)))) at 1 by lia.
  rewrite range_succ, map_app. cbn [map].
  set (k := Z.to_nat (N - 1)).
  rewrite list_pop_last. cbn [Py.bind fst snd app].
  set (Q := fun g => map (fun j => map (fun c => if c =? (j - g) mod N then 1 else 0)
                                       (range N)) (range N)).
  assert (HrN : range N = 0 :: map (fun g => g + 1) (range (Z.of_nat k))).
  { replace N with (Z.of_nat (S k)) by lia. apply range_cons. }
  rewrite HrN. cbn [map]. rewrite map_map. f_equal. f_equal.
  - unfold P, Q. apply map_ext_in. intros j Hj. apply In_range in Hj.
    apply unit_row_ext.
    apply (complement_mod N _ _ 1); lia.
  - apply map_ext_in. intros g Hg. apply In_range in Hg.
    unfold P, Q. apply map_ext_in. intros j Hj. apply In_range in Hj.
    apply unit_row_ext.
    apply (complement_mod N _ _ 0); lia.
Qed.

(** X14: [get_cyclic_reps(N)] raises [IndexError] for N <= 0 (it pops from an
    empty list); for N >= 1 it returns, for g = 0, ..., N-1 in this order,
    the N x N permutation matrix whose row j has its 1 in column
    (j - g) mod N, so the first matrix is the identity. *)
Theorem get_cyclic_reps_spec (N : Z) :
  (N <= 0 -> get_cyclic_reps N = Raise IndexError)
  /\ (1 <= N ->
      get_cyclic_reps N =
      Ok (map (fun g =>
            map (fun j =>
              map (fun c => if c =? (j - g) mod N then 1 else 0) (range N))
              (range N))
            (range N)))
  /\ (1 <= N ->
      exists reps, get_cyclic_reps N = Ok reps
        /\ list_getitem reps 0 =
           Ok (map (fun j => map (fun c => if c =? j then 1 else 0) (range N))
                   (range N))).
Proof.
  split; [|split; [exact (get_cyclic_reps_value N)|]].
  - intros HN. unfold get_cyclic_reps.
    rewrite (range_nonpos N HN). reflexivity.
  - intros HN.
    set (Q := fun g => map (fun j => map (fun c => if c =? (j - g) mod N then 1 else 0)
                                         (range N)) (range N)).
    exists (map Q (range N)). split; [exact (get_cyclic_reps_value N HN)|].
    rewrite (list_getitem_nth _ 0 []) by (rewrite length_map, range_length; lia).
    change (Z.to_nat 0) with 0%nat.
    rewrite (nth_indep _ [] (Q 0)) by (rewrite length_map, range_length; lia).
    rewrite (map_nth Q), nth_range by lia.
    f_equal. unfold Q.
    apply map_ext_in. intros j Hj. apply In_range in Hj.
    apply unit_row_ext. change (Z.of_nat 0) with 0.
    rewrite Z.sub_0_r. apply Z.mod_small. lia.
Qed.

Lemma get_cyclic_reps_spec_witness :
  get_cyclic_reps 0 = Raise IndexError
  /\ get_cyclic_reps 3 =
     Ok (map (fun g =>
           map (fun j =>
             map (fun c => if c =? (j - g) mod 3 then 1 else 0) (range 3))
             (range 3))
           (range 3)).
Proof.
  split.
  - apply (proj1 (get_cyclic_reps_spec 0)). lia.
  - apply (proj1 (proj2 (get_cyclic_reps_spec 3))). lia.
Defined.

(** ** The representations of the product group *)

Lemma seq_offset (s n : nat) :
  map Z.of_nat (seq s n) = map (fun k => Z.of_nat s + Z.of_nat k) (seq 0 n).
Proof.
  induction n as [|n IH]; [reflexivity|].
  rewrite !seq_S, !map_app, IH. cbn [map]. do 2 f_equal. lia.
Qed.

Lemma range_add (a b : Z) :
  0 <= a -> 0 <= b -> range (a + b) = range a ++ map (fun k => a + k) (range b).
Proof.
  intros Ha Hb. unfold range.
  rewrite Z2Nat.inj_add, seq_app, map_app by assumption. f_equal.
  rewrite Nat.add_0_l, seq_offset, map_map, Z2Nat.id by exact Ha. reflexivity.
Qed.

Lemma flat_map_of_map {A B C : Type} (fn : B -> list C) (gn : A -> B) (l : list A) :
  flat_map fn (map gn l) = flat_map (fun x => fn (gn x)) l.
Proof. induction l as [|x l IH]; simpl; [|rewrite IH]; reflexivity. Qed.

(** Two nested loops over range(N) enumerate range(N * N) in row-major
    order. *)
Lemma flat_range {B : Type} (G : Z -> Z -> B) (N : Z) (m : nat) :
  1 <= N ->
  flat_map (fun a => map (G a) (range N)) (range (Z.of_nat m))
  = map (fun k => G (k / N) (k mod N)) (range (Z.of_nat m * N)).
Proof.
  intros HN. induction m as [|m IH].
  - reflexivity.
  - rewrite range_succ, flat_map_app, IH. cbn [flat_map]. rewrite app_nil_r.
    replace (Z.of_nat (S m) * N) with (Z.of_nat m * N + N) by lia.
    rewrite range_add, map_app by nia. f_equal.
    rewrite map_map. apply map_ext_in. intros k Hk. apply In_range in Hk.
    rewrite Z.div_add_l, Z.div_small, Z.add_0_r by lia.
    rewrite Z.add_comm, Z.mod_add, Z.mod_small by lia. reflexivity.
Qed.

Lemma flat_range_square {B : Type} (G : Z -> Z -> B) (N : Z) :
  1 <= N ->
  flat_map (fun a => map (G a) (range N)) (range N)
  = map (fun k => G (k / N) (k mod N)) (range (N * N)).
Proof.
  intros HN. pose proof (flat_range G N (Z.to_nat N) HN) as H.
  rewrite Z2Nat.id in H by lia. exact H.
Qed.

Lemma kron_table (N : Z) (A B : Z -> Z -> Z) :
  1 <= N ->
  kron (table N N A) (table N N B)
  = table (N * N) (N * N)
      (fun a b => A (a / N) (b / N) * B (a mod N) (b mod N)).
Proof.
  intros HN. unfold kron, table.
  rewrite flat_map_of_map.
  rewrite <- (flat_range_square
                (fun a1 a2 => map (fun b => A a1 (b / N) * B a2 (b mod N))
                                  (range (N * N))) N HN).
  apply flat_map_ext. intros a1. rewrite map_map. apply map_ext. intros a2.
  rewrite flat_map_of_map.
  rewrite <- (flat_range_square (fun b1 b2 => A a1 b1 * B a2 b2) N HN).
  apply flat_map_ext. intros b1. rewrite map_map. reflexivity.
Qed.

Lemma nth_table_row (F : Z -> Z) (n : Z) (k : nat) :
  (k < Z.to_nat n)%nat -> nth k (map F (range n)) 0 = F (Z.of_nat k).
Proof.
  intros Hk.
  rewrite (nth_indep _ 0 (F 0)) by (rewrite length_map, range_length; exact Hk).
  rewrite (map_nth F), nth_range by exact Hk. reflexivity.
Qed.

Lemma transpose_table (rows cols : Z) (F : Z -> Z -> Z) :
  1 <= rows ->
  transpose (table rows cols F) = table cols rows (fun b a => F a b).
Proof.
  intros Hr. unfold transpose, table.
  assert (Hhd : length (hd [] (map (fun a => map (F a) (range cols)) (range rows)))
                = Z.to_nat cols).
  { replace rows with (Z.of_nat (S (Z.to_nat (rows - 1)))) by lia.
    rewrite range_cons. cbn [map hd]. rewrite length_map, range_length. reflexivity. }
  rewrite Hhd. unfold range at 4. rewrite (map_map Z.of_nat).
  apply map_ext_in. intros k Hk. apply in_seq in Hk.
  rewrite map_map. apply map_ext. intros a.
  apply nth_table_row. lia.
Qed.

(** [np.argmax] of a 0/1 array with a single 1 finds its position. *)
Lemma argmax_from_indicator (p : Z) (len : nat) :
  forall i best,
    argmax_from (map (fun k => if i + Z.of_nat k =? p then 1 else 0) (seq 0 len))
                i best 1 = best
    /\ argmax_from (map (fun k => if i + Z.of_nat k =? p then 1 else 0) (seq 0 len))
                   i best 0
       = if (i <=? p) && (p <? i + Z.of_nat len) then p else best.
Proof.
  induction len as [|len IH]; intros i best.
  - cbn [seq map argmax_from]. split; [reflexivity|].
    destruct (Z.leb_spec i p), (Z.ltb_spec p (i + Z.of_nat 0)); cbn [andb];
      try reflexivity; lia.
  - assert (Hshift : map (fun k => if i + Z.of_nat k =? p then 1 else 0)
                         (seq 0 (S len))
                     = (if i =? p then 1 else 0)
                       :: map (fun k => if (i + 1) + Z.of_nat k =? p then 1 else 0)
                              (seq 0 len)).
    { cbn [seq map]. rewrite Z.add_0_r. f_equal.
      rewrite <- seq_shift, map_map. apply map_ext. intros k.
      replace (i + Z.of_nat (S k)) with (i + 1 + Z.of_nat k) by lia. reflexivity. }
    rewrite Hshift. cbn [argmax_from].
    destruct (IH (i + 1) best) as [IH1 IH0].
    destruct (IH (i + 1) i) as [IHi1 _].
    destruct (Z.eqb_spec i p) as [Hip|Hip].
    + change (1 <? 1) with false. change (0 <? 1) with true. cbv iota.
      split; [exact IH1|]. rewrite IHi1.
      destruct (Z.leb_spec i p), (Z.ltb_spec p (i + Z.of_nat (S len)));
        cbn [andb]; lia.
    + change (1 <? 0) with false. change (0 <? 0) with false. cbv iota.
      split; [exact IH1|]. rewrite IH0.
      destruct (Z.leb_spec (i + 1) p), (Z.ltb_spec p (i + 1 + Z.of_nat len)),
        (Z.leb_spec i p), (Z.ltb_spec p (i + Z.of_nat (S len)));
        cbn [andb]; try reflexivity; lia.
Qed.

Lemma first_column_argmax_table (M : Z) (F : Z -> Z -> Z) (p : Z) :
  0 <= p < M ->
  (forall a, 0 <= a < M -> F a 0 = if a =? p then 1 else 0) ->
  first_column_argmax (table M M F) = Ok p.
Proof.
  intros Hp HF. unfold first_column_argmax, table.
  assert (Hcol : comprehension (fun row => list_getitem row 0)
                   (map (fun a => map (F a) (range M)) (range M))
                 = Ok (map (fun a => if a =? p then 1 else 0) (range M))).
  { assert (Hgen : forall xs, (forall a, In a xs -> 0 <= a < M) ->
              comprehension (fun row => list_getitem row 0)
                (map (fun a => map (F a) (range M)) xs)
              = Ok (map (fun a => if a =? p then 1 else 0) xs)).
    { induction xs as [|x xs IH]; intros Hxs; [reflexivity|].
      cbn [map comprehension].
      rewrite (list_getitem_nth _ 0 0) by (rewrite length_map, range_length; lia).
      change (Z.to_nat 0) with 0%nat. rewrite nth_table_row by lia.
      cbn [Py.bind]. rewrite IH by (intros a Ha; apply Hxs; right; exact Ha).
      cbn [Py.bind]. rewrite HF by (apply Hxs; left; reflexivity). reflexivity. }
    apply Hgen. intros a Ha. apply In_range. exact Ha. }
  rewrite Hcol. cbn [Py.bind].
  replace M with (Z.of_nat (S (Z.to_nat (M - 1)))) at 1 by lia.
  unfold range. rewrite Nat2Z.id, map_map. cbn [seq map].
  rewrite <- seq_shift, map_map. f_equal.
  pose proof (argmax_from_indicator p (Z.to_nat (M - 1)) 1 0) as [H1 H0].
  assert (Hlist : map (fun x => if Z.of_nat (S x) =? p then 1 else 0)
                      (seq 0 (Z.to_nat (M - 1)))
                  = map (fun k => if 1 + Z.of_nat k =? p then 1 else 0)
                        (seq 0 (Z.to_nat (M - 1)))).
  { apply map_ext. intros k. replace (Z.of_nat (S k)) with (1 + Z.of_nat k) by lia.
    reflexivity. }
  rewrite Hlist. change (Z.of_nat 0) with 0.
  destruct (Z.eqb_spec 0 p) as [<-|Hne].
  - exact H1.
  - rewrite H0.
    destruct (Z.leb_spec 1 p), (Z.ltb_spec p (1 + Z.of_nat (Z.to_nat (M - 1))));
      cbn [andb]; try reflexivity; lia.
Qed.

(** A list whose keys already ascend is left as it is by the sort. *)
Lemma stable_sort_ascending {A : Type} (F : nat -> A) (len : nat) :
  forall s,
    stable_sort (map (fun k => (Z.of_nat k, F k)) (seq s len))
    = map (fun k => (Z.of_nat k, F k)) (seq s len).
Proof.
  induction len as [|len IH]; intros s; [reflexivity|].
  cbn [seq map]. unfold stable_sort in *. cbn [fold_right]. rewrite IH.
  destruct len as [|len]; [reflexivity|].
  cbn [seq map insert_by_key fst].
  destruct (Z.leb_spec (Z.of_nat s) (Z.of_nat (S s))); [reflexivity | lia].
Qed.

Lemma combine_map_r {A B : Type} (G : A -> B) (l : list A) :
  combine l (map G l) = map (fun x => (x, G x)) l.
Proof. induction l as [|x l IH]; simpl; [|rewrite IH]; reflexivity. Qed.

Lemma comprehension_map {A B C : Type} (fn : B -> result C) (K : A -> B)
      (fn' : A -> C) (xs : list A) :
  (forall x, In x xs -> fn (K x) = Ok (fn' x)) ->
  comprehension fn (map K xs) = Ok (map fn' xs).
Proof.
  induction xs as [|x xs IH]; intros H; [reflexivity|].
  cbn [map comprehension]. rewrite (H x) by (left; reflexivity). cbn [Py.bind].
  rewrite IH by (intros y Hy; apply H; right; exact Hy). reflexivity.
Qed.

Lemma sorted_by_index {A : Type} (G : Z -> A) (key : A -> result Z) (M : Z) :
  (forall g, 0 <= g < M -> key (G g) = Ok g) ->
  sorted (map G (range M)) key = Ok (map G (range M)).
Proof.
  intros Hkey. unfold sorted.
  rewrite (comprehension_map key G (fun g => g))
    by (intros g Hg; apply Hkey, In_range, Hg).
  cbn [Py.bind]. rewrite map_id, combine_map_r. f_equal.
  unfold range. rewrite map_map.
  rewrite (stable_sort_ascending (fun k => G (Z.of_nat k))).
  rewrite !map_map. reflexivity.
Qed.

(** ** Index arithmetic of the product group *)

Lemma cyclic_difference_swap (N u v w : Z) :
  1 <= N -> 0 <= u < N -> 0 <= w < N ->
  u = (v - w) mod N -> w = (v - u) mod N.
Proof.
  intros HN Hu Hw H.
  pose proof (Z.div_mod (v - w) N ltac:(lia)) as E. rewrite <- H in E.
  apply (Z.mod_unique_pos _ _ ((v - w) / N)); lia.
Qed.

Lemma product_indicator (N g r c : Z) :
  1 <= N -> 0 <= g < N * N -> 0 <= r < N * N -> 0 <= c < N * N ->
  (if r / N =? (c / N - g / N) mod N then 1 else 0)
  * (if r mod N =? (c mod N - g mod N) mod N then 1 else 0)
  = if g =? offset N r c then 1 else 0.
Proof.
  intros HN Hg Hr Hc.
  assert (Hsq : N ^ 2 = N * N) by ring.
  destruct (index_coordinates N g HN ltac:(lia)) as [Bg1 Bg2].
  destruct (index_coordinates N r HN ltac:(lia)) as [Br1 Br2].
  pose proof (Z.mod_pos_bound (c / N - r / N) N ltac:(lia)) as Bo1.
  pose proof (Z.mod_pos_bound (c mod N - r mod N) N ltac:(lia)) as Bo2.
  destruct (flatten_coordinates N _ _ HN Bo1 Bo2) as (_ & Hoq & Hor).
  fold (offset N r c) in Hoq, Hor.
  destruct (Z.eqb_spec g (offset N r c)) as [Hgo|Hgo].
  - rewrite <- Hgo in Hoq, Hor.
    assert (E1 : r / N = (c / N - g / N) mod N).
    { apply (cyclic_difference_swap N (g / N)); auto. }
    assert (E2 : r mod N = (c mod N - g mod N) mod N).
    { apply (cyclic_difference_swap N (g mod N)); auto. }
    rewrite <- E1, <- E2, !Z.eqb_refl. reflexivity.
  - destruct (Z.eqb_spec (r / N) ((c / N - g / N) mod N)) as [E1|E1];
      [|apply Z.mul_0_l].
    destruct (Z.eqb_spec (r mod N) ((c mod N - g mod N) mod N)) as [E2|E2];
      [|reflexivity].
    exfalso. apply Hgo.
    apply cyclic_difference_swap in E1; try assumption.
    apply cyclic_difference_swap in E2; try assumption.
    rewrite (Z.div_mod g N) by lia. unfold offset. rewrite <- E1, <- E2. ring.
Qed.

Lemma extend_loop_pure {A B : Type} (body : list B -> A -> list B)
      (row : A -> list B) (xs : list A) (acc : list B) :
  (forall x v, body v x = v ++ row x) ->
  for_each_pure xs body acc = acc ++ flat_map row xs.
Proof.
  intros Hb. unfold for_each_pure.
  revert acc; induction xs as [|x xs IH]; intros acc; simpl.
  - rewrite app_nil_r. reflexivity.
  - rewrite Hb, IH, <- app_assoc. reflexivity.
Qed.

Lemma table_ext (rows cols : Z) (F G : Z -> Z -> Z) :
  (forall a b, 0 <= a < rows -> 0 <= b < cols -> F a b = G a b) ->
  table rows cols F = table rows cols G.
Proof.
  intros H. unfold table. apply map_ext_in. intros a Ha. apply In_range in Ha.
  apply map_ext_in. intros b Hb. apply In_range in Hb. apply H; assumption.
Qed.

Lemma offset_zero (N a : Z) : 1 <= N -> 0 <= a < N * N -> offset N 0 a = a.
Proof.
  intros HN Ha. unfold offset.
  destruct (index_coordinates N a HN ltac:(lia)) as [Bq Br].
  rewrite Z.div_0_l, Z.mod_0_l, !Z.sub_0_r by lia.
  rewrite !Z.mod_small by lia.
  rewrite (Z.div_mod a N) at 3 by lia. ring.
Qed.

Lemma get_cyclic_product_reps_value (N : Z) :
  1 <= N ->
  get_cyclic_product_reps N =
  Ok (map (fun g =>
        table (N * N) (N * N) (fun r c => if g =? offset N r c then 1 else 0))
        (range (N * N))).
Proof.
  intros HN. unfold get_cyclic_product_reps.
  rewrite (get_cyclic_reps_value N HN). cbn [Py.bind].
  set (R := fun g => table N N (fun j c => if c =? (j - g) mod N then 1 else 0)).
  set (Kf := fun g a b =>
         (if b / N =? (a / N - g / N) mod N then 1 else 0)
         * (if b mod N =? (a mod N - g mod N) mod N then 1 else 0)).
  assert (Hreps :
    for_each_pure (map R (range N)) (fun reps mat1 =>
      for_each_pure (map R (range N)) (fun reps mat2 =>
        reps ++ [kron mat1 mat2]) reps) []
    = map (fun g => table (N * N) (N * N) (Kf g)) (range (N * N))).
  { rewrite (extend_loop_pure _
               (fun mat1 => map (fun mat2 => kron mat1 mat2) (map R (range N))))
      by (intros mat1 v; apply (snoc_loop_pure (fun mat2 => kron mat1 mat2))).
    cbn [app]. rewrite flat_map_of_map.
    transitivity
      (flat_map (fun g1 => map (fun g2 => table (N * N) (N * N)
                  (fun a b =>
                     (if b / N =? (a / N - g1) mod N then 1 else 0)
                     * (if b mod N =? (a mod N - g2) mod N then 1 else 0)))
                  (range N)) (range N)).
    - apply flat_map_ext. intros g1. rewrite map_map. apply map_ext. intros g2.
      unfold R. rewrite kron_table by exact HN. reflexivity.
    - rewrite flat_range_square by exact HN. reflexivity. }
  rewrite Hreps.
  rewrite (sorted_by_index (fun g => table (N * N) (N * N) (Kf g))).
  - cbn [Py.bind]. rewrite map_map. f_equal.
    apply map_ext_in. intros g Hg. apply In_range in Hg.
    rewrite transpose_table by nia.
    apply table_ext. intros r c Hr Hc. unfold Kf.
    apply product_indicator; assumption.
  - intros g Hg. apply first_column_argmax_table; [exact Hg|].
    intros a Ha. unfold Kf.
    rewrite (product_indicator N g 0 a) by (try assumption; nia).
    rewrite offset_zero by assumption. rewrite (Z.eqb_sym g a). reflexivity.
Qed.

(** X15: [get_cyclic_product_reps(N)] raises [IndexError] for N <= 0; for
    N >= 1 it returns N^2 permutation matrices of size N^2 x N^2, sorted
    by group element, the matrix of element g having its 1 of row r in the
    column c whose wrapped index difference from r is g.  The sort leaves
    the order of the two loops unchanged. *)
Theorem get_cyclic_product_reps_spec (N : Z) :
  (N <= 0 -> get_cyclic_product_reps N = Raise IndexError)
  /\ (1 <= N ->
      get_cyclic_product_reps N =
      Ok (map (fun g =>
            map (fun r =>
              map (fun c => if g =? offset N r c then 1 else 0) (range (N ^ 2)))
              (range (N ^ 2)))
            (range (N ^ 2)))).
Proof.
  split.
  - intros HN. unfold get_cyclic_product_reps, get_cyclic_reps.
    rewrite (range_nonpos N HN). reflexivity.
  - intros HN. rewrite Z.pow_2_r. exact (get_cyclic_product_reps_value N HN).
Qed.

Lemma get_cyclic_product_reps_spec_witness :
  get_cyclic_product_reps (-1) = Raise IndexError
  /\ get_cyclic_product_reps 2 =
     Ok (map (fun g =>
           map (fun r =>
             map (fun c => if g =? offset 2 r c then 1 else 0) (range (2 ^ 2)))
             (range (2 ^ 2)))
           (range (2 ^ 2))).
Proof.
  split.
  - apply (proj1 (get_cyclic_product_reps_spec (-1))). lia.
  - apply (proj2 (get_cyclic_product_reps_spec 2)). lia.
Defined.

Lemma cross_correlation_total_witness :
  exists A, cross_correlation (-2) exp_kernel 3 = Ok A
    /\ Np.has_shape A (Z.to_nat ((-2) ^ 2)) (Z.to_nat ((-2) ^ 2))
    /\ forall i j, 0 <= i < (-2) ^ 2 -> 0 <= j < (-2) ^ 2 ->
         exists e, matrix_entry i j (-2) exp_kernel = Ok e
           /\ Np.getitem A i j = Ok (3 * e + (if i =? j then 1 else 0))%R.
Proof. exact (proj2 (proj2 (cross_correlation_total (-2) exp_kernel 3))). Defined.

(** ** Symmetry of the forcing data at lamb = 1 *)

(** X9: With lamb = 1, the value the study uses, [g] is symmetric in its two
    coordinates on every pair of reals: g(x, y, 1) and g(y, x, 1) return
    the same value or raise the same exception (the products
    (1 * h(x)) * h(y) and (1 * h(y)) * h(x) are the same product of two
    factors).  For any lamb, g(x, y, lamb) raises exactly when
    g(y, x, lamb) does, with the same exception. *)
Theorem g_symmetric_unit (x y : R) :
  g x y 1 = g y x 1
  /\ forall lamb e, g x y lamb = Raise e <-> g y x lamb = Raise e.
Proof.
  assert (Hraise : forall u v lamb e, g u v lamb = Raise e -> g v u lamb = Raise e).
  { intros u v lamb e. unfold g.
    destruct (func u) as [hu|eu] eqn:Eu, (func v) as [hv|ev] eqn:Ev;
      cbn [Py.bind]; intros H; try discriminate H; try exact H.
    apply func_raises in Eu, Ev. destruct Eu as [-> _], Ev as [-> _]. exact H. }
  split.
  - unfold g.
    destruct (func x) as [hx|ex] eqn:Ex, (func y) as [hy|ey] eqn:Ey;
      cbn [Py.bind]; try reflexivity.
    + f_equal. rewrite (f_sym x y). ring.
    + apply func_raises in Ex, Ey. destruct Ex as [-> _], Ey as [-> _]. reflexivity.
  - intros lamb e. split; apply Hraise.
Qed.

(** X12: For n >= 1 and i, j in [0, n), [discretized_f(n)] is unchanged by
    swapping the two lattice axes (the components at i*n + j and at
    j*n + i are equal), and so is [discretized_g(1, n)], the right-hand
    side the study solves for; the components of [discretized_f(n)] on
    the two lattice axes (j = 0, index i*n; i = 0, index j) are 0. *)
Theorem discretized_vectors_transpose (n i j : Z) :
  1 <= n -> 0 <= i < n -> 0 <= j < n ->
  Np.item (discretized_f n) (i * n + j) = Np.item (discretized_f n) (j * n + i)
  /\ (exists gvec, discretized_g 1 n = Ok gvec
        /\ Np.item gvec (i * n + j) = Np.item gvec (j * n + i))
  /\ Np.item (discretized_f n) (i * n) = Ok 0%R
  /\ Np.item (discretized_f n) j = Ok 0%R.
Proof.
  intros Hn Hi Hj. rewrite discretized_f_grid, discretized_g_grid.
  split; [|split; [|split]].
  - rewrite !grid_item by assumption. f_equal. apply f_sym.
  - eexists. split; [reflexivity|].
    rewrite !grid_item by assumption. f_equal. rewrite (f_sym (IZR i / IZR n)). ring.
  - replace (i * n) with (i * n + 0) by ring.
    rewrite grid_item by lia. f_equal. unfold f, Rdiv. rewrite Rmult_0_l. ring.
  - replace j with (0 * n + j) at 1 by ring.
    rewrite grid_item by lia. f_equal. unfold f, Rdiv. rewrite Rmult_0_l. ring.
Qed.

Lemma discretized_vectors_transpose_witness :
  Np.item (discretized_f 4) (1 * 4 + 3) = Np.item (discretized_f 4) (3 * 4 + 1)
  /\ (exists gvec, discretized_g 1 4 = Ok gvec
        /\ Np.item gvec (1 * 4 + 3) = Np.item gvec (3 * 4 + 1))
  /\ Np.item (discretized_f 4) (1 * 4) = Ok 0%R
  /\ Np.item (discretized_f 4) 3 = Ok 0%R.
Proof. apply (discretized_vectors_transpose 4 1 3); lia. Defined.

(* ===================================================================== *)
(** * The operator in binary64 *)
(* ===================================================================== *)


(** ** Indexing binary64 arrays *)

Lemma binary64_zeros_shape (r c : Z) :
  Binary64.has_shape (Binary64.zeros r c) (Z.to_nat r) (Z.to_nat c).
Proof.
  unfold Binary64.has_shape, Binary64.zeros. split.
  - apply repeat_length.
  - intros row Hin. apply repeat_spec in Hin. subst. apply repeat_length.
Qed.

Lemma binary64_getitem_zeros (r c i j : Z) :
  0 <= i < r -> 0 <= j < c ->
  Binary64.getitem (Binary64.zeros r c) i j = Ok 0%float.
Proof.
  intros Hi Hj. unfold Binary64.getitem, Binary64.zeros.
  rewrite repeat_length, norm_index_in_range by lia. cbn [Py.bind].
  rewrite nth_repeat_lt by lia.
  rewrite repeat_length, norm_index_in_range by lia. cbn [Py.bind].
  rewrite nth_repeat_lt by lia. reflexivity.
Qed.

Section Shaped64.

Variables (a : Binary64.matrix) (rows cols : nat).
Hypothesis Hshape : Binary64.has_shape a rows cols.

Lemma binary64_shape_row (i : Z) :
  0 <= i < Z.of_nat rows -> length (nth (Z.to_nat i) a []) = cols.
Proof.
  intros Hi. destruct Hshape as [Hr Hc]. apply Hc, nth_In. lia.
Qed.

Lemma binary64_setitem_spec (i j : Z) (v : float) :
  0 <= i < Z.of_nat rows -> 0 <= j < Z.of_nat cols ->
  exists a', Binary64.setitem a i j v = Ok a'
    /\ Binary64.has_shape a' rows cols
    /\ forall x y, 0 <= x < Z.of_nat rows -> 0 <= y < Z.of_nat cols ->
         Binary64.getitem a' x y =
         if (x =? i) && (y =? j) then Ok v else Binary64.getitem a x y.
Proof.
  intros Hi Hj. pose proof (binary64_shape_row i Hi) as Hrow.
  destruct Hshape as [Hr Hc].
  unfold Binary64.setitem. rewrite Hr, norm_index_in_range by lia. cbn [Py.bind].
  rewrite Hrow, norm_index_in_range by lia. cbn [Py.bind].
  eexists. split; [reflexivity|]. split.
  - split; [rewrite update_length; exact Hr|].
    intros row Hin. apply In_update in Hin. destruct Hin as [->|Hin]; auto.
    rewrite update_length. exact Hrow.
  - intros x y Hx Hy. unfold Binary64.getitem.
    rewrite update_length, Hr, !norm_index_in_range by lia. cbn [Py.bind].
    destruct (Z.eqb_spec x i) as [->|Hxi]; cbn [andb].
    + rewrite nth_update_eq by lia.
      rewrite update_length, Hrow, !norm_index_in_range by lia. cbn [Py.bind].
      destruct (Z.eqb_spec y j) as [->|Hyj].
      * rewrite nth_update_eq by lia. reflexivity.
      * rewrite nth_update_ne by lia. reflexivity.
    + rewrite nth_update_ne by lia. reflexivity.
Qed.

End Shaped64.

(** ** The binary64 operator, entry by entry *)

(** What [matrix_entry] returns, as a function of the two axis
    contributions to the distance. *)
Lemma binary64_matrix_entry_value (i j n : Z) (kernel_func : float -> float) :
  n <> 0 ->
  Binary64.matrix_entry i j n kernel_func =
  Ok (Binary64.of_int 1 / Binary64.of_int (n ^ 2)
      * kernel_func (Binary64.axis n (i / n) (j / n)
                     + Binary64.axis n (i mod n) (j mod n)))%float.
Proof.
  intros Hn. unfold Binary64.matrix_entry.
  destruct (Z.eqb_spec n 0) as [|_]; [contradiction|]. reflexivity.
Qed.

Section Operator64.

Variables (n : Z) (kernel_func : float -> float) (lamb : float).
Hypothesis Hn : n <> 0.

Let entry (x y : Z) : float :=
  (Binary64.of_int 1 / Binary64.of_int (n ^ 2)
   * kernel_func (Binary64.axis n (x / n) (y / n)
                  + Binary64.axis n (x mod n) (y mod n)))%float.

(** The value the two loops leave at [(x, y)]. *)
Let cell (x y : Z) : float :=
  if x =? y then (lamb * entry x y + 1)%float else (lamb * entry x y)%float.

Let assigned (i0 j0 x y : Z) : bool :=
  (x <? i0) || ((x =? i0) && (y <? j0)).

Let m : nat := Z.to_nat (n ^ 2).

Let inv (i0 j0 : Z) (a : Binary64.matrix) : Prop :=
  Binary64.has_shape a m m /\
  forall x y, 0 <= x < n ^ 2 -> 0 <= y < n ^ 2 ->
    Binary64.getitem a x y = Ok (if assigned i0 j0 x y then cell x y else 0%float).

Let body (i : Z) (result : Binary64.matrix) (j : Z) : Py.result Binary64.matrix :=
  e <- Binary64.matrix_entry i j n kernel_func ;;
  result <- Binary64.setitem result i j (lamb * e)%float ;;
  if i =? j then
    old <- Binary64.getitem result i j ;;
    Binary64.setitem result i j (old + 1)%float
  else Ok result.

Lemma binary64_m_square : Z.of_nat m = n ^ 2.
Proof. unfold m. rewrite Z2Nat.id; [reflexivity | nia]. Qed.

Lemma binary64_body_step (i j : Z) (a : Binary64.matrix) :
  0 <= i < n ^ 2 -> 0 <= j < n ^ 2 -> inv i j a ->
  exists a', body i a j = Ok a' /\ inv i (j + 1) a'.
Proof.
  intros Hi Hj [Hshape Hget]. pose proof binary64_m_square as Hm.
  unfold body. rewrite binary64_matrix_entry_value by lia. cbn [Py.bind].
  fold (entry i j).
  destruct (binary64_setitem_spec a m m Hshape i j (lamb * entry i j)%float)
    as (a1 & -> & Hs1 & Hg1); try lia.
  cbn [Py.bind].
  assert (Hfinal : exists a',
    (if i =? j
     then old <- Binary64.getitem a1 i j ;; Binary64.setitem a1 i j (old + 1)%float
     else Ok a1) = Ok a'
    /\ Binary64.has_shape a' m m
    /\ forall x y, 0 <= x < n ^ 2 -> 0 <= y < n ^ 2 ->
         Binary64.getitem a' x y =
         if (x =? i) && (y =? j) then Ok (cell i j) else Binary64.getitem a x y).
  { unfold cell. destruct (Z.eqb_spec i j) as [Heq|Hne].
    - rewrite Hg1 by lia. rewrite Heq, !Z.eqb_refl. cbn [Py.bind andb].
      destruct (binary64_setitem_spec a1 m m Hs1 j j (lamb * entry j j + 1)%float)
        as (a2 & -> & Hs2 & Hg2); try lia.
      exists a2. split; [reflexivity|]. split; [exact Hs2|].
      intros x y Hx Hy. rewrite Hg2 by lia.
      destruct ((x =? j) && (y =? j)) eqn:Hxy; [reflexivity|].
      rewrite Hg1 by lia. rewrite Heq, Hxy. reflexivity.
    - exists a1. split; [reflexivity|]. split; [exact Hs1|].
      intros x y Hx Hy. rewrite Hg1 by lia. reflexivity. }
  destruct Hfinal as (a' & -> & Hs' & Hg').
  exists a'. split; [reflexivity|]. split; [exact Hs'|].
  intros x y Hx Hy. rewrite Hg' by lia. unfold assigned.
  destruct (Z.eqb_spec x i) as [->|Hxi]; cbn [andb orb].
  - destruct (Z.eqb_spec y j) as [->|Hyj].
    + destruct (Z.ltb_spec i i); [lia|]. destruct (Z.ltb_spec j (j + 1)); [|lia].
      reflexivity.
    + rewrite Hget by lia. unfold assigned. rewrite Z.eqb_refl. cbn [andb orb].
      destruct (Z.ltb_spec y j), (Z.ltb_spec y (j + 1)); try lia; reflexivity.
  - rewrite Hget by lia. unfold assigned.
    destruct (Z.eqb_spec x i); [contradiction|]. reflexivity.
Qed.

Lemma binary64_row_loop (i : Z) (a : Binary64.matrix) :
  0 <= i < n ^ 2 -> inv i 0 a ->
  exists a', for_each (range (n ^ 2)) (body i) a = Ok a' /\ inv (i + 1) 0 a'.
Proof.
  intros Hi Ha. pose proof binary64_m_square as Hm.
  destruct (for_range_invariant (fun k t => inv i (Z.of_nat k) t) (body i) m a)
    as (a' & Hrun & Hinv).
  - exact Ha.
  - intros k t Hk Ht.
    destruct (binary64_body_step i (Z.of_nat k) t) as (t' & Hb & Ht'); try lia; auto.
    exists t'. split; [exact Hb|]. rewrite Nat2Z.inj_succ. exact Ht'.
  - rewrite Hm in Hrun. exists a'. split; [exact Hrun|].
    destruct Hinv as [Hs Hg]. split; [exact Hs|].
    intros x y Hx Hy. rewrite Hg by lia. unfold assigned. rewrite Hm.
    destruct (Z.ltb_spec x i), (Z.ltb_spec x (i + 1)), (Z.eqb_spec x i),
      (Z.eqb_spec x (i + 1)), (Z.ltb_spec y (n ^ 2)), (Z.ltb_spec y 0);
      cbn [andb orb]; try lia; reflexivity.
Qed.

(** For every [n] but 0 the binary64 [cross_correlation] returns an
    [n^2 x n^2] matrix whose entry [(i, j)] is [lamb * matrix_entry(i, j)],
    with 1 added when [i = j]. *)
Lemma binary64_cross_correlation_entries :
  exists A, Binary64.cross_correlation n kernel_func lamb = Ok A
    /\ Binary64.has_shape A (Z.to_nat (n ^ 2)) (Z.to_nat (n ^ 2))
    /\ forall i j, 0 <= i < n ^ 2 -> 0 <= j < n ^ 2 ->
         Binary64.getitem A i j = Ok (cell i j).
Proof.
  pose proof binary64_m_square as Hm.
  destruct (for_range_invariant (fun k t => inv (Z.of_nat k) 0 t)
              (fun result i => for_each (range (n ^ 2)) (body i) result)
              m (Binary64.zeros (n ^ 2) (n ^ 2)))
    as (A & Hrun & Hs & Hg).
  - split; [apply binary64_zeros_shape|].
    intros x y Hx Hy. rewrite binary64_getitem_zeros by lia. unfold assigned.
    change (Z.of_nat 0) with 0.
    destruct (Z.ltb_spec x 0), (Z.eqb_spec x 0), (Z.ltb_spec y 0);
      cbn [andb orb]; try lia; reflexivity.
  - intros k t Hk Ht.
    destruct (binary64_row_loop (Z.of_nat k) t) as (t' & Hb & Ht'); try lia; auto.
    exists t'. split; [exact Hb|]. rewrite Nat2Z.inj_succ. exact Ht'.
  - rewrite Hm in Hrun. exists A. split; [exact Hrun|]. split; [exact Hs|].
    intros i j Hi Hj. rewrite Hg by lia. unfold assigned. rewrite Hm.
    destruct (Z.ltb_spec i (n ^ 2)); [reflexivity | lia].
Qed.

End Operator64.

(** ** Rounding on the lattice *)

Lemma map_pointwise {A B : Type} (fn gn : A -> B) (l : list A) :
  map fn l = map gn l -> forall x, In x l -> fn x = gn x.
Proof.
  induction l as [|y l IH]; intros H x Hx; [contradiction|].
  cbn [map] in H. injection H as Hy Hl.
  destruct Hx as [<-|Hx]; [exact Hy | apply IH; assumption].
Qed.

Lemma In_range2_intro (start stop k : Z) :
  start <= k < stop -> In k (range2 start stop).
Proof.
  intros Hk. unfold range2. apply in_map_iff.
  exists (Z.to_nat (k - start)). split; [lia|]. apply in_seq. lia.
Qed.

Lemma resolutions_positive (n : Z) : In n Binary64.resolutions -> 1 <= n.
Proof. unfold Binary64.resolutions. cbn [In]. lia. Qed.

(** At the resolutions of the study every lattice coordinate and every
    difference of two of them is a binary64 number, so the contribution
    of an axis is the one of the integer difference: checked on every
    pair of coordinates. *)
Lemma axis_table :
  map (fun n => map (fun u => map (fun v => Binary64.axis n u v) (range n))
                    (range n)) Binary64.resolutions
  = map (fun n => map (fun u => map (fun v => Binary64.wrapped n (Z.abs (u - v)))
                                    (range n))
                      (range n)) Binary64.resolutions.
Proof. vm_compute. reflexivity. Qed.

(** A difference [m] and its complement [n - m] contribute the same. *)
Lemma wrapped_table :
  map (fun n => map (fun m => Binary64.wrapped n (n - m)) (range2 1 n))
      Binary64.resolutions
  = map (fun n => map (fun m => Binary64.wrapped n m) (range2 1 n))
        Binary64.resolutions.
Proof. vm_compute. reflexivity. Qed.

Lemma axis_wrapped (n u v : Z) :
  In n Binary64.resolutions -> 0 <= u < n -> 0 <= v < n ->
  Binary64.axis n u v = Binary64.wrapped n (Z.abs (u - v)).
Proof.
  intros Hn Hu Hv.
  pose proof (map_pointwise _ _ _ axis_table n Hn) as Hrows.
  pose proof (map_pointwise _ _ _ Hrows u (proj2 (In_range n u) Hu)) as Hrow.
  exact (map_pointwise _ _ _ Hrow v (proj2 (In_range n v) Hv)).
Qed.

Lemma wrapped_complement (n m : Z) :
  In n Binary64.resolutions -> 0 < m < n ->
  Binary64.wrapped n (n - m) = Binary64.wrapped n m.
Proof.
  intros Hn Hm.
  pose proof (map_pointwise _ _ _ wrapped_table n Hn) as Hrow.
  apply (map_pointwise _ _ _ Hrow m). apply In_range2_intro. lia.
Qed.

Lemma binary64_axis_shift (n u v a : Z) :
  In n Binary64.resolutions -> 0 <= u < n -> 0 <= v < n ->
  Binary64.axis n ((u + a) mod n) ((v + a) mod n) = Binary64.axis n u v.
Proof.
  intros Hn Hu Hv. pose proof (resolutions_positive n Hn) as Hpos.
  pose proof (Z.mod_pos_bound (u + a) n ltac:(lia)) as Bu.
  pose proof (Z.mod_pos_bound (v + a) n ltac:(lia)) as Bv.
  rewrite !axis_wrapped by assumption.
  destruct (shifted_difference n u v a Hpos Hu Hv) as [E|E]; rewrite E.
  - reflexivity.
  - apply wrapped_complement; [exact Hn | lia].
Qed.

Lemma binary64_entry_shift (n : Z) (kernel_func : float -> float) (a b i j : Z) :
  In n Binary64.resolutions -> 0 <= i < n ^ 2 -> 0 <= j < n ^ 2 ->
  (Binary64.axis n (shift n a b i / n) (shift n a b j / n)
   + Binary64.axis n (shift n a b i mod n) (shift n a b j mod n))%float
  = (Binary64.axis n (i / n) (j / n)
     + Binary64.axis n (i mod n) (j mod n))%float.
Proof.
  intros Hn Hi Hj. pose proof (resolutions_positive n Hn) as Hpos.
  destruct (shift_coordinates n a b i Hpos) as (_ & Hqi & Hri).
  destruct (shift_coordinates n a b j Hpos) as (_ & Hqj & Hrj).
  destruct (index_coordinates n i Hpos Hi) as [Bqi Bri].
  destruct (index_coordinates n j Hpos Hj) as [Bqj Brj].
  rewrite Hqi, Hri, Hqj, Hrj.
  rewrite !binary64_axis_shift by assumption. reflexivity.
Qed.

(** C10, as amended: in binary64, at the resolutions the study runs
    (n = 4, 8, 16, 32, 64) and at n = 1, 2, where every lattice
    coordinate is a binary64 number, [matrix_entry] returns bit for bit
    the same value on (i, j) and on the pair shifted by any cyclic shift
    (a, b), for every kernel; so does the entry of the matrix built by
    [cross_correlation], which is therefore a two-level circulant. *)
Theorem binary64_translation_invariant
        (n : Z) (kernel_func : float -> float) (a b i j : Z) :
  In n Binary64.resolutions -> 0 <= i < n ^ 2 -> 0 <= j < n ^ 2 ->
  (exists e, Binary64.matrix_entry i j n kernel_func = Ok e
     /\ Binary64.matrix_entry (shift n a b i) (shift n a b j) n kernel_func = Ok e)
  /\ forall lamb, exists A,
       Binary64.cross_correlation n kernel_func lamb = Ok A
       /\ exists v, Binary64.getitem A i j = Ok v
            /\ Binary64.getitem A (shift n a b i) (shift n a b j) = Ok v.
Proof.
  intros Hn Hi Hj. pose proof (resolutions_positive n Hn) as Hpos.
  assert (Hn0 : n <> 0) by lia.
  pose proof (binary64_entry_shift n kernel_func a b i j Hn Hi Hj) as Hd.
  split.
  - eexists. split; [apply binary64_matrix_entry_value; exact Hn0|].
    rewrite binary64_matrix_entry_value by exact Hn0. rewrite Hd. reflexivity.
  - intros lamb.
    destruct (binary64_cross_correlation_entries n kernel_func lamb Hn0)
      as (A & HA & _ & Hg).
    exists A. split; [exact HA|].
    destruct (shift_coordinates n a b i Hpos) as (Bi & _).
    destruct (shift_coordinates n a b j Hpos) as (Bj & _).
    eexists. split; [apply Hg; assumption|].
    rewrite Hg by assumption. rewrite Hd.
    destruct (Z.eqb_spec (shift n a b i) (shift n a b j)) as [E|E],
             (Z.eqb_spec i j) as [E'|E']; try reflexivity.
    + apply shift_inj in E; try assumption. contradiction.
    + subst j. contradiction.
Qed.

Lemma binary64_translation_invariant_witness :
  (exists e, Binary64.matrix_entry 5 14 4 (fun d => (1 / (1 + d))%float) = Ok e
     /\ Binary64.matrix_entry (shift 4 1 3 5) (shift 4 1 3 14) 4
          (fun d => (1 / (1 + d))%float) = Ok e)
  /\ forall lamb, exists A,
       Binary64.cross_correlation 4 (fun d => (1 / (1 + d))%float) lamb = Ok A
       /\ exists v, Binary64.getitem A 5 14 = Ok v
            /\ Binary64.getitem A (shift 4 1 3 5) (shift 4 1 3 14) = Ok v.
Proof.
  apply (binary64_translation_invariant 4 (fun d => (1 / (1 + d))%float) 1 3 5 14).
  - right; right; left; reflexivity.
  - lia.
  - lia.
Defined.

(** C10 as stated fails at n = 5: for the identity kernel the entry of
    the pair (0, 1) and the entry of the same pair shifted by (0, 2),
    which is (2, 3), differ in the last place, because 3/5 - 2/5 is not
    1/5 in binary64. *)
Lemma binary64_translation_fails :
  1 <= 5 /\ 0 <= 0 < 5 ^ 2 /\ 0 <= 1 < 5 ^ 2
  /\ shift 5 0 2 0 = 2 /\ shift 5 0 2 1 = 3
  /\ Binary64.matrix_entry (shift 5 0 2 0) (shift 5 0 2 1) 5 (fun d => d)
     <> Binary64.matrix_entry 0 1 5 (fun d => d)
  /\ exists e e', Binary64.matrix_entry 0 1 5 (fun d => d) = Ok e
       /\ Binary64.matrix_entry 2 3 5 (fun d => d) = Ok e'
       /\ (e' <? e)%float = true.
Proof.
  split; [lia|]. split; [lia|]. split; [lia|].
  split; [reflexivity|]. split; [reflexivity|]. split.
  - intros H.
    apply (f_equal (fun r => match r with
                             | Ok e => (e =? 1 / 125)%float
                             | Raise _ => false
                             end)) in H.
    vm_compute in H. discriminate H.
  - eexists. eexists. split; [vm_compute; reflexivity|].
    split; [vm_compute; reflexivity|]. vm_compute. reflexivity.
Qed.


(** ** The binary64 operator and its filter *)

Lemma binary64_get_filter_item (n : Z) (kernel_func : float -> float)
      (lamb : float) :
  n <> 0 ->
  exists m, Binary64.get_filter n kernel_func lamb = Ok m
    /\ length m = Z.to_nat (n ^ 2)
    /\ forall j, 0 <= j < n ^ 2 ->
         Binary64.item m j =
         Ok (let e := (Binary64.of_int 1 / Binary64.of_int (n ^ 2)
                       * kernel_func (Binary64.axis n (0 / n) (j / n)
                                      + Binary64.axis n (0 mod n) (j mod n)))%float in
             if 0 =? j then (lamb * e + 1)%float else (lamb * e)%float).
Proof.
  intros Hn. unfold Binary64.get_filter.
  rewrite binary64_matrix_entry_value by exact Hn. cbn [Py.bind].
  set (E := fun j => (Binary64.of_int 1 / Binary64.of_int (n ^ 2)
                      * kernel_func (Binary64.axis n (0 / n) (j / n)
                                     + Binary64.axis n (0 mod n) (j mod n)))%float).
  rewrite (snoc_loop _ (fun j => (lamb * E j)%float))
    by (intros j v _; rewrite binary64_matrix_entry_value by exact Hn; reflexivity).
  cbn [app]. eexists. split; [reflexivity|].
  assert (Hlen : forall (c : float) (F : Z -> float),
            length (c :: map F (range2 1 (n ^ 2))) = Z.to_nat (n ^ 2)).
  { intros c F. cbn [length]. unfold range2. rewrite !length_map, length_seq. nia. }
  split; [apply Hlen|].
  intros j Hj. unfold Binary64.item. rewrite Hlen, norm_index_in_range by lia.
  cbn [Py.bind]. f_equal. cbv zeta. fold (E j).
  destruct (Z.eqb_spec 0 j) as [<-|Hj0].
  - reflexivity.
  - replace (Z.to_nat j) with (S (Z.to_nat (j - 1))) by lia. cbn [nth].
    rewrite (nth_indep _ 0%float ((fun j0 => (lamb * E j0)%float) 0))
      by (unfold range2; rewrite !length_map, length_seq; lia).
    rewrite (map_nth (fun j0 => (lamb * E j0)%float)), nth_range2 by lia.
    replace (1 + Z.of_nat (Z.to_nat (j - 1))) with j by lia. reflexivity.
Qed.

Lemma offset_shift (n i j : Z) :
  1 <= n ->
  shift n (- (i / n)) (- (i mod n)) i = 0
  /\ shift n (- (i / n)) (- (i mod n)) j = offset n i j.
Proof.
  intros Hn. unfold shift, offset. rewrite !Z.add_opp_r, !Z.sub_diag.
  rewrite Z.mod_0_l by lia. split; reflexivity.
Qed.

(** X7: in binary64, at the resolutions the study runs (n = 4, 8, 16, 32,
    64) and at n = 1, 2, the operator is determined by the filter, bit
    for bit: every entry A[i, j] of [cross_correlation] is the component
    of [get_filter] at the wrapped index difference of i and j. *)
Theorem binary64_operator_circulant
        (n : Z) (kernel_func : float -> float) (lamb : float) :
  In n Binary64.resolutions ->
  exists m A, Binary64.get_filter n kernel_func lamb = Ok m
    /\ Binary64.cross_correlation n kernel_func lamb = Ok A
    /\ forall i j, 0 <= i < n ^ 2 -> 0 <= j < n ^ 2 ->
         0 <= offset n i j < n ^ 2
         /\ exists v, Binary64.getitem A i j = Ok v
              /\ Binary64.item m (offset n i j) = Ok v.
Proof.
  intros Hn. pose proof (resolutions_positive n Hn) as Hpos.
  assert (Hn0 : n <> 0) by lia.
  destruct (binary64_get_filter_item n kernel_func lamb Hn0) as (m & Hm & _ & Hitem).
  destruct (binary64_cross_correlation_entries n kernel_func lamb Hn0)
    as (A & HA & _ & Hg).
  exists m, A. split; [exact Hm|]. split; [exact HA|].
  intros i j Hi Hj.
  destruct (offset_shift n i j Hpos) as [Hzero Hoff].
  destruct (shift_coordinates n (- (i / n)) (- (i mod n)) j Hpos) as (Brange & _).
  rewrite Hoff in Brange. split; [exact Brange|].
  pose proof (binary64_entry_shift n kernel_func (- (i / n)) (- (i mod n)) i j
                Hn Hi Hj) as Hd.
  rewrite Hzero, Hoff in Hd.
  eexists. split; [apply Hg; assumption|].
  rewrite Hitem by exact Brange. cbv zeta. rewrite Hd. f_equal.
  destruct (Z.eqb_spec 0 (offset n i j)) as [E|E], (Z.eqb_spec i j) as [E'|E'];
    try reflexivity.
  - exfalso. apply E'.
    apply (shift_inj n (- (i / n)) (- (i mod n))); try assumption.
    rewrite Hzero, Hoff. exact E.
  - exfalso. apply E. subst j. rewrite <- Hoff, Hzero. reflexivity.
Qed.

Lemma binary64_operator_circulant_witness :
  exists m A, Binary64.get_filter 8 (fun d => (1 / (1 + d))%float) 1 = Ok m
    /\ Binary64.cross_correlation 8 (fun d => (1 / (1 + d))%float) 1 = Ok A
    /\ forall i j, 0 <= i < 8 ^ 2 -> 0 <= j < 8 ^ 2 ->
         0 <= offset 8 i j < 8 ^ 2
         /\ exists v, Binary64.getitem A i j = Ok v
              /\ Binary64.item m (offset 8 i j) = Ok v.
Proof.
  apply (binary64_operator_circulant 8 (fun d => (1 / (1 + d))%float) 1).
  right; right; right; left; reflexivity.
Defined.
